(** * morgan-json: the request logger of [index.js]

    A shallow embedding of the logger middleware: the template compiler
    ([compile]), the token and format registry ([exports]), the per-request
    logging step ([logRequest]) and the optional batching writer, followed
    by the properties of the specification that concern them. *)

From Stdlib Require Import ZArith String Ascii List Bool Lia DecimalString.
From stdpp Require Import base option list strings gmap.

Local Open Scope string_scope.
Local Open Scope Z_scope.

(** ** JavaScript values *)

(** The extractor functions registered at the bottom of [index.js]. *)
Inductive Builtin :=
| TUrl | TMethod | TResponseTime | TDate | TStatus | TReferrer | TRemoteAddr
| THttpVersion | TUserAgent | TReq | TRes | TPayload | TResBody.

(** Function objects are told apart by identity. [FCompiled js] is the
    function built by [new Function('tokens, req, res', js)]; [FUser id] is a
    function of the host application. *)
Inductive Fn :=
| FToken (t : Builtin)
| FDev
| FApiToken
| FApiFormat
| FNeverSkip
| FCompiled (js : string)
| FUser (id : nat).

(** Numbers are restricted to integers (no fraction, no NaN); strings are
    sequences of code units below 256. *)
Inductive Val :=
| VUndef
| VNull
| VBool (b : bool)
| VNum (n : Z)
| VStr (s : string)
| VFun (f : Fn).

Inductive Exn :=
| TypeError
| Thrown (v : Val).

(** The result of running a piece of JavaScript: a value, an exception, or
    [Beyond] when the behaviour lies outside what this development models. *)
Inductive Outcome (A : Type) :=
| Ret (a : A)
| Throw (e : Exn)
| Beyond.
Arguments Ret {A} a.
Arguments Throw {A} e.
Arguments Beyond {A}.

Definition obind {A B} (o : Outcome A) (k : A -> Outcome B) : Outcome B :=
  match o with
  | Ret a => k a
  | Throw e => Throw e
  | Beyond => Beyond
  end.

(** ToBoolean. *)
Definition truthy (v : Val) : bool :=
  match v with
  | VUndef | VNull => false
  | VBool b => b
  | VNum n => negb (n =? 0)
  | VStr s => negb (String.eqb s EmptyString)
  | VFun _ => true
  end.

(** [a || b] on values already computed. *)
Definition or_val (a b : Val) : Val := if truthy a then a else b.

(** [null == v]. *)
Definition nullish (v : Val) : bool :=
  match v with
  | VUndef | VNull => true
  | _ => false
  end.

(** The integers a number holds exactly, which print in plain decimal. *)
Definition safe_integer (n : Z) : bool :=
  (- 9007199254740991 <=? n) && (n <=? 9007199254740991).

(** ToString on primitives; the source text of a function and the
    rendering of numbers that are not safe integers are not modelled. *)
Definition to_string (v : Val) : Outcome string :=
  match v with
  | VUndef => Ret "undefined"
  | VNull => Ret "null"
  | VBool true => Ret "true"
  | VBool false => Ret "false"
  | VNum n =>
      if safe_integer n then Ret (NilZero.string_of_int (Z.to_int n))
      else Beyond
  | VStr s => Ret s
  | VFun _ => Beyond
  end.

(** ** Characters *)

Definition dq : ascii := "034"%char.
Definition bs : ascii := "092"%char.
Definition lf : ascii := "010"%char.
Definition cr : ascii := "013"%char.

Definition str1 (c : ascii) : string := String c EmptyString.

Definition code (c : ascii) : N := N_of_ascii c.

(** The class [[-\w]]: dash, digit, letter or underscore. *)
Definition is_name_char (c : ascii) : bool :=
  let n := code c in
  (n =? 45)%N
  || ((48 <=? n)%N && (n <=? 57)%N)
  || ((65 <=? n)%N && (n <=? 90)%N)
  || (n =? 95)%N
  || ((97 <=? n)%N && (n <=? 122)%N).

(** ** The format compiler *)

(** [fmt.replace(/"/g, '\\"')]. *)
Fixpoint escape_quotes (s : string) : string :=
  match s with
  | EmptyString => EmptyString
  | String c r =>
      if Ascii.eqb c dq then String bs (String dq (escape_quotes r))
      else String c (escape_quotes r)
  end.

(** Longest prefix of name characters, and what follows it. *)
Fixpoint span_name (s : string) : string * string :=
  match s with
  | EmptyString => (EmptyString, EmptyString)
  | String c r =>
      if is_name_char c then
        let '(n, rest) := span_name r in (String c n, rest)
      else (EmptyString, s)
  end.

(** Longest prefix without a closing bracket, and what follows it. *)
Fixpoint span_arg (s : string) : string * string :=
  match s with
  | EmptyString => (EmptyString, EmptyString)
  | String c r =>
      if Ascii.eqb c "]" then (EmptyString, s)
      else let '(a, rest) := span_arg r in (String c a, rest)
  end.

(** The optional group [(?:\[([^\]]+)\])?] tried at the head of [s]: the
    captured argument and the rest, or [None] when the group does not
    match (the match then goes on without it). *)
Definition match_arg (s : string) : option (string * string) :=
  match s with
  | String "[" r =>
      match span_arg r with
      | (String c a, String "]" rest) => Some (String c a, rest)
      | _ => None
      end
  | _ => None
  end.

(** The text the replacement callback returns for one token reference. An
    argument that was not captured is [undefined] and concatenates as
    such. *)
Definition placeholder (name : string) (arg : option string) : string :=
  str1 dq +:+ str1 lf +:+ "    + (tokens[" +:+ str1 dq +:+ name +:+ str1 dq
  +:+ "](req, res, " +:+ str1 dq +:+ default "undefined" arg +:+ str1 dq
  +:+ ") || " +:+ str1 dq +:+ "-" +:+ str1 dq +:+ ") + " +:+ str1 dq.

(** [s.replace(/:([-\w]{2,})(?:\[([^\]]+)\])?/g, callback)]: matches are
    taken left to right and do not overlap; [fuel] bounds the number of
    scanning steps. *)
Fixpoint replace_tokens_fuel (fuel : nat) (s : string) : string :=
  match fuel with
  | O => s
  | S fuel' =>
      match s with
      | EmptyString => EmptyString
      | String c r =>
          if Ascii.eqb c ":" then
            let '(name, rest) := span_name r in
            if (2 <=? String.length name)%nat then
              match match_arg rest with
              | Some (arg, rest') =>
                  placeholder name (Some arg) +:+ replace_tokens_fuel fuel' rest'
              | None =>
                  placeholder name None +:+ replace_tokens_fuel fuel' rest
              end
            else String c (replace_tokens_fuel fuel' r)
          else String c (replace_tokens_fuel fuel' r)
      end
  end.

Definition replace_tokens (s : string) : string :=
  replace_tokens_fuel (String.length s) s.

(** The source text handed to [new Function]. *)
Definition compile_js (fmt : string) : string :=
  "  return " +:+ str1 dq +:+ replace_tokens (escape_quotes fmt)
  +:+ str1 dq +:+ ";".

(** ** The function constructor, on the bodies [compile] emits *)

(** A single-character escape inside a string literal. Numeric and unicode
    escapes and line continuations are left out of the model. *)
Definition unescape (e : ascii) : option ascii :=
  if Ascii.eqb e "b" then Some "008"%char
  else if Ascii.eqb e "t" then Some "009"%char
  else if Ascii.eqb e "n" then Some lf
  else if Ascii.eqb e "v" then Some "011"%char
  else if Ascii.eqb e "f" then Some "012"%char
  else if Ascii.eqb e "r" then Some cr
  else if Ascii.eqb e "x" || Ascii.eqb e "u" then None
  else if (48 <=? code e)%N && (code e <=? 57)%N then None
  else if Ascii.eqb e lf || Ascii.eqb e cr then None
  else Some e.

(** Reads a double-quoted string literal whose opening quote has been
    consumed: its value and the text after the closing quote. A raw line
    terminator or the end of the text inside the literal is a syntax
    error. *)
Fixpoint lex_string (s : string) : option (string * string) :=
  match s with
  | EmptyString => None
  | String c r =>
      if Ascii.eqb c dq then Some (EmptyString, r)
      else if Ascii.eqb c lf || Ascii.eqb c cr then None
      else if Ascii.eqb c bs then
        match r with
        | EmptyString => None
        | String e r' =>
            match unescape e, lex_string r' with
            | Some ch, Some (v, rest) => Some (String ch v, rest)
            | _, _ => None
            end
        end
      else
        match lex_string r with
        | Some (v, rest) => Some (String c v, rest)
        | None => None
        end
  end.

Fixpoint strip_prefix (p s : string) : option string :=
  match p with
  | EmptyString => Some s
  | String a p' =>
      match s with
      | String b s' => if Ascii.eqb a b then strip_prefix p' s' else None
      | EmptyString => None
      end
  end.

(** One [+ (tokens[name](req, res, arg) || dflt) + text] of a body. *)
Record Ref := mkRef {
  ref_name : string;
  ref_arg : string;
  ref_default : string;
  ref_text : string
}.

(** A body [return first + ref_1 + ... + ref_n;]. *)
Record Body := mkBody {
  body_first : string;
  body_refs : list Ref
}.

Fixpoint parse_refs (fuel : nat) (s : string) : option (list Ref) :=
  match fuel with
  | O => None
  | S fuel' =>
      if String.eqb s ";" then Some []
      else
        s1 ← strip_prefix (str1 lf +:+ "    + (tokens[" +:+ str1 dq) s;
        '(name, s2) ← lex_string s1;
        s3 ← strip_prefix ("](req, res, " +:+ str1 dq) s2;
        '(arg, s4) ← lex_string s3;
        s5 ← strip_prefix (") || " +:+ str1 dq) s4;
        '(dflt, s6) ← lex_string s5;
        s7 ← strip_prefix (") + " +:+ str1 dq) s6;
        '(text, s8) ← lex_string s7;
        refs ← parse_refs fuel' s8;
        Some (mkRef name arg dflt text :: refs)
  end.

(** Function bodies of the shape [compile] emits; [None] for any other
    text, be it a syntax error or JavaScript of another shape. *)
Definition parse_body (js : string) : option Body :=
  s1 ← strip_prefix ("  return " +:+ str1 dq) js;
  '(first, s2) ← lex_string s1;
  refs ← parse_refs (S (String.length s2)) s2;
  Some (mkBody first refs).

(** [new Function('tokens, req, res', js)]. *)
Definition new_Function (js : string) : Outcome Fn :=
  match parse_body js with
  | Some _ => Ret (FCompiled js)
  | None => Beyond
  end.

(** [compile(fmt)] (lines 123-129). A value without a [replace] method
    raises a TypeError. *)
Definition compile (fmt : Val) : Outcome Fn :=
  match fmt with
  | VStr s => new_Function (compile_js s)
  | _ => Throw TypeError
  end.

(** ** Requests and responses *)

Record Socket := mkSocket {
  remoteAddress : Val;
  socket_socket : option Val
}.

Record Request := mkRequest {
  originalUrl : Val;
  url : Val;
  method : Val;
  headers : gmap string Val;
  ip : Val;
  socket : Socket;
  httpVersionMajor : Val;
  httpVersionMinor : Val;
  _startTime : Val;
  _remoteAddress : Val
}.

Record Response := mkResponse {
  headersSent : Val;
  statusCode : Val;
  _headers : option (gmap string Val);
  _body : Val
}.

(** [c.toLowerCase()] on one code unit below 256. *)
Definition lower_char (c : ascii) : ascii :=
  let n := code c in
  if ((65 <=? n)%N && (n <=? 90)%N)
     || ((192 <=? n)%N && (n <=? 222)%N && negb (n =? 215)%N)
  then ascii_of_N (n + 32) else c.

(** [s.toLowerCase()]. *)
Fixpoint toLowerCase (s : string) : string :=
  match s with
  | EmptyString => EmptyString
  | String c r => String (lower_char c) (toLowerCase r)
  end.

(** [m !! k] as a value: [undefined] when the map holds nothing under
    [k]. *)
Definition prop (m : gmap string Val) (k : string) : Val :=
  default VUndef (m !! k).

Definition name_in (k : string) (l : list string) : bool :=
  existsb (String.eqb k) l.

(** The string-keyed properties of [Object.prototype], which every
    ordinary object inherits. *)
Definition object_prototype_names : list string :=
  [ "constructor"; "__defineGetter__"; "__defineSetter__"; "hasOwnProperty";
    "__lookupGetter__"; "__lookupSetter__"; "isPrototypeOf";
    "propertyIsEnumerable"; "toString"; "valueOf"; "__proto__";
    "toLocaleString" ].

(** [obj[k]] on an object whose own properties are [m], such as
    [req.headers] or the literal [{}]: an own property is found first;
    under a name of [Object.prototype] the lookup reaches a method or an
    accessor of the runtime, which is not modelled; under any other name it
    yields [undefined]. *)
Definition object_get (m : gmap string Val) (k : string) : Outcome Val :=
  match m !! k with
  | Some v => Ret v
  | None => if name_in k object_prototype_names then Beyond else Ret VUndef
  end.

(** ** The properties of [exports]

    [exports] is the function [logger] of line 30, so [exports[k]] reaches,
    besides what was assigned to it, the properties a function object has
    of its own and those it inherits from [Function.prototype] and
    [Object.prototype]. *)

(** What the function object holds under a name before anything is
    assigned to it. *)
Inductive Slot :=
| SFixed (v : Val)   (* an own property that is not writable *)
| SEngine            (* reading and writing are the engine's business *)
| SNative            (* a writable property holding an object or a method
                        of the runtime *)
| SPlain.            (* nothing *)

(** [name] and [length] are own, non-writable properties of the function
    [logger], which has one parameter; [arguments] and [caller] differ from
    engine to engine, and [__proto__] is an accessor that replaces the
    prototype; [prototype] is own and writable, and the other names are the
    methods of [Function.prototype] and [Object.prototype]. *)
Definition export_slot (k : string) : Slot :=
  if String.eqb k "name" then SFixed (VStr "logger")
  else if String.eqb k "length" then SFixed (VNum 1)
  else if name_in k ["arguments"; "caller"; "__proto__"] then SEngine
  else if name_in k ("prototype" :: "apply" :: "bind" :: "call"
                      :: object_prototype_names) then SNative
  else SPlain.

(** [exports[k]], where [e] holds the properties assigned to [exports]. *)
Definition export_get (e : gmap string Val) (k : string) : Outcome Val :=
  match export_slot k with
  | SFixed v => Ret v
  | SEngine => Beyond
  | SNative =>
      match e !! k with
      | Some v => Ret v
      | None => Beyond
      end
  | SPlain => Ret (prop e k)
  end.

(** [exports[k] = v]. The file is not in strict mode, so the assignment to
    a property that is not writable is ignored without an error. *)
Definition export_set (e : gmap string Val) (k : string) (v : Val)
    : Outcome (gmap string Val) :=
  match export_slot k with
  | SFixed _ => Ret e
  | SEngine => Beyond
  | SNative | SPlain => Ret (<[k := v]> e)
  end.

(** A name under which an assignment takes effect. *)
Definition assignable (k : string) : bool :=
  match export_slot k with
  | SNative | SPlain => true
  | SFixed _ | SEngine => false
  end.

(** What a function is applied to. *)
Inductive Arg :=
| AVal (v : Val)
| AReq (r : Request)
| ARes (r : Response)
| ATokens (m : gmap string Val).

Notation "x <- e ;; k" := (obind e (fun x => k))
  (at level 100, e at next level, right associativity).

(** The extractors registered with [exports.token] (lines 208-309); those
    reading the clock or serialising a body are not modelled. The header
    names [referer], [referrer] and [user-agent] are no names of
    [Object.prototype], so [prop] reads them. *)
Definition builtin_token (t : Builtin) (req : Request) (res : Response)
    (field : string) : Outcome Val :=
  match t with
  | TUrl => Ret (or_val (originalUrl req) (url req))
  | TMethod => Ret (method req)
  | TStatus => Ret (if truthy (headersSent res) then statusCode res else VNull)
  | TReferrer =>
      Ret (or_val (prop (headers req) "referer") (prop (headers req) "referrer"))
  | TRemoteAddr =>
      if truthy (ip req) then Ret (ip req)
      else if truthy (_remoteAddress req) then Ret (_remoteAddress req)
      else match socket_socket (socket req) with
           | Some a => Ret a
           | None => Ret (remoteAddress (socket req))
           end
  | THttpVersion =>
      a <- to_string (httpVersionMajor req);;
      b <- to_string (httpVersionMinor req);;
      Ret (VStr (a +:+ "." +:+ b))
  | TUserAgent => Ret (prop (headers req) "user-agent")
  | TReq => object_get (headers req) (toLowerCase field)
  | TRes => object_get (default ∅ (_headers res)) (toLowerCase field)
  | TResponseTime | TDate | TPayload | TResBody => Beyond
  end.

Section Calls.

(** The behaviour of the host application's functions, by identity, on the
    arguments they are applied to. They are taken to have no effect on the
    logger's state. *)
Variable user_apply : nat -> list Arg -> Outcome Val.

(** [f(req, res, arg)]. *)
Definition call_token (f : Val) (req : Request) (res : Response)
    (arg : string) : Outcome Val :=
  match f with
  | VFun (FToken t) => builtin_token t req res arg
  | VFun (FUser id) => user_apply id [AReq req; ARes res; AVal (VStr arg)]
  | VFun _ => Beyond
  | _ => Throw TypeError
  end.

(** [tokens[name](req, res, arg)], where [tokens] is [exports]. *)
Definition call_named (tokens : gmap string Val) (name : string)
    (req : Request) (res : Response) (arg : string) : Outcome Val :=
  f <- export_get tokens name;;
  call_token f req res arg.

(** [acc + (tokens[name](req, res, arg) || dflt) + text], then the rest. *)
Fixpoint eval_refs (tokens : gmap string Val) (req : Request) (res : Response)
    (acc : string) (refs : list Ref) : Outcome string :=
  match refs with
  | [] => Ret acc
  | r :: refs' =>
      v <- call_named tokens (ref_name r) req res (ref_arg r);;
      s <- to_string (or_val v (VStr (ref_default r)));;
      eval_refs tokens req res (acc +:+ s +:+ ref_text r) refs'
  end.

(** Running a compiled body on [(tokens, req, res)]. *)
Definition run_compiled (js : string) (tokens : gmap string Val)
    (req : Request) (res : Response) : Outcome Val :=
  match parse_body js with
  | Some b =>
      s <- eval_refs tokens req res (body_first b) (body_refs b);;
      Ret (VStr s)
  | None => Beyond
  end.

(** [fmt(exports, req, res)]. *)
Definition call_render (f : Val) (tokens : gmap string Val) (req : Request)
    (res : Response) : Outcome Val :=
  match f with
  | VFun (FCompiled js) => run_compiled js tokens req res
  | VFun (FUser id) => user_apply id [ATokens tokens; AReq req; ARes res]
  | VFun _ => Beyond
  | _ => Throw TypeError
  end.

(** [skip(req, res)]. *)
Definition call_skip (f : Val) (req : Request) (res : Response) : Outcome Val :=
  match f with
  | VFun FNeverSkip => Ret (VBool false)
  | VFun (FUser id) => user_apply id [AReq req; ARes res]
  | VFun _ => Beyond
  | _ => Throw TypeError
  end.

End Calls.

(** ** The registry *)

(** What was assigned to [exports]: one property map holds the tokens, the
    named formats and the two registration functions themselves. What
    [exports[name]] yields is [export_get]. *)
Abbreviation Registry := (gmap string Val).

(** The body of [exports.token] (lines 141-144): [exports[name] = fn]. The
    [this] it returns serves chaining only. *)
Definition token (name : string) (fn : Val) (e : Registry) : Outcome Registry :=
  export_set e name fn.

(** The body of [exports.format] (lines 155-158). *)
Definition format (name : string) (fmt : Val) (e : Registry) : Outcome Registry :=
  export_set e name fmt.

(** Applying what [exports.token] or [exports.format] holds at the time of
    the call to [(name, v)]; a function of the host in their place may do
    anything to [exports]. *)
Definition apply_api (f : Val) (name : string) (v : Val) (e : Registry)
    : Outcome Registry :=
  match f with
  | VFun FApiToken => token name v e
  | VFun FApiFormat => format name v e
  | VFun _ => Beyond
  | _ => Throw TypeError
  end.

(** The call [exports.token(name, fn)]. *)
Definition exports_token (name : string) (fn : Val) (e : Registry)
    : Outcome Registry :=
  f <- export_get e "token";; apply_api f name fn e.

(** The call [exports.format(name, fmt)]. *)
Definition exports_format (name : string) (fmt : Val) (e : Registry)
    : Outcome Registry :=
  f <- export_get e "format";; apply_api f name fmt e.

(** Statements that change [exports], one after the other. *)
Definition in_order (steps : list (Registry -> Outcome Registry))
    (e : Registry) : Outcome Registry :=
  fold_left (fun o f => e' <- o;; f e') steps (Ret e).

(** Writes a template with apostrophes where the source has double
    quotes. *)
Fixpoint apos_to_dq (s : string) : string :=
  match s with
  | EmptyString => EmptyString
  | String c r => String (if Ascii.eqb c "'" then dq else c) (apos_to_dq r)
  end.

Definition default_format : string := apos_to_dq
  "{'address': ':remote-addr', 'date': ':date', 'method': ':method', 'url': ':url', 'httpVersion': 'HTTP/:http-version', 'status': ':status', 'contentLength': ':res[content-length]', 'referrer': ':referrer', 'userAgent': ':user-agent'}".

Definition short_format : string := apos_to_dq
  "{'address': ':remote-addr', 'method': ':method', 'url': ':url', 'httpVersion': 'HTTP/:http-version', 'status': ':status', 'contentLength': ':res[content-length]', 'time': ':response-time ms', 'payload': ':payload', 'response': ':res-body'}".

Definition tiny_format : string := apos_to_dq
  "{'method': ':method', 'url': ':url', 'status', ':status', 'contentLength': ':res[content-length]', 'time', ':response-time ms'}".

(** Loading the module (lines 141-309), in source order: the two
    registration functions are assigned to [exports], then called. *)
Definition load : Outcome Registry :=
  in_order
    [ (fun e => export_set e "token" (VFun FApiToken));
      (fun e => export_set e "format" (VFun FApiFormat));
      exports_format "default" (VStr default_format);
      exports_format "short" (VStr short_format);
      exports_format "tiny" (VStr tiny_format);
      exports_format "dev" (VFun FDev);
      exports_token "url" (VFun (FToken TUrl));
      exports_token "method" (VFun (FToken TMethod));
      exports_token "response-time" (VFun (FToken TResponseTime));
      exports_token "date" (VFun (FToken TDate));
      exports_token "status" (VFun (FToken TStatus));
      exports_token "referrer" (VFun (FToken TReferrer));
      exports_token "remote-addr" (VFun (FToken TRemoteAddr));
      exports_token "http-version" (VFun (FToken THttpVersion));
      exports_token "user-agent" (VFun (FToken TUserAgent));
      exports_token "req" (VFun (FToken TReq));
      exports_token "res" (VFun (FToken TRes));
      exports_token "payload" (VFun (FToken TPayload));
      exports_token "res-body" (VFun (FToken TResBody)) ]
    ∅.

(** What has been assigned to [exports] once the module is loaded;
    [load_returns] below shows that loading returns. *)
Definition initial_exports : Registry :=
  match load with
  | Ret e => e
  | _ => ∅
  end.

(** ** The state of one logger and one request/response cycle *)

(** Listeners of the response. [LogRequest] is the closure of the cycle;
    the others belong to the framework and do not touch the logger. *)
Inductive Listener :=
| LogRequest
| Foreign (id : nat).

Global Instance Listener_eq_dec : EqDecision Listener.
Proof. solve_decision. Defined.

Record World := mkWorld {
  w_exports : Registry;
  w_now : Z;
  w_req : Request;
  w_res : Response;
  w_end_proxied : bool;
  w_finish : list Listener;
  w_close : list Listener;
  w_buf : list string;
  w_timer : option (Z * Z);
  w_out : list string;
  w_renders : nat
}.

Definition set_exports (f : Registry -> Registry) (w : World) : World :=
  mkWorld (f (w_exports w)) (w_now w) (w_req w) (w_res w) (w_end_proxied w)
    (w_finish w) (w_close w) (w_buf w) (w_timer w) (w_out w) (w_renders w).
Definition set_now (t : Z) (w : World) : World :=
  mkWorld (w_exports w) t (w_req w) (w_res w) (w_end_proxied w)
    (w_finish w) (w_close w) (w_buf w) (w_timer w) (w_out w) (w_renders w).
Definition set_req (r : Request) (w : World) : World :=
  mkWorld (w_exports w) (w_now w) r (w_res w) (w_end_proxied w)
    (w_finish w) (w_close w) (w_buf w) (w_timer w) (w_out w) (w_renders w).
Definition set_res (r : Response) (w : World) : World :=
  mkWorld (w_exports w) (w_now w) (w_req w) r (w_end_proxied w)
    (w_finish w) (w_close w) (w_buf w) (w_timer w) (w_out w) (w_renders w).
Definition set_end_proxied (b : bool) (w : World) : World :=
  mkWorld (w_exports w) (w_now w) (w_req w) (w_res w) b
    (w_finish w) (w_close w) (w_buf w) (w_timer w) (w_out w) (w_renders w).
Definition set_finish (f : list Listener -> list Listener) (w : World) : World :=
  mkWorld (w_exports w) (w_now w) (w_req w) (w_res w) (w_end_proxied w)
    (f (w_finish w)) (w_close w) (w_buf w) (w_timer w) (w_out w) (w_renders w).
Definition set_close (f : list Listener -> list Listener) (w : World) : World :=
  mkWorld (w_exports w) (w_now w) (w_req w) (w_res w) (w_end_proxied w)
    (w_finish w) (f (w_close w)) (w_buf w) (w_timer w) (w_out w) (w_renders w).
Definition set_buf (b : list string) (w : World) : World :=
  mkWorld (w_exports w) (w_now w) (w_req w) (w_res w) (w_end_proxied w)
    (w_finish w) (w_close w) b (w_timer w) (w_out w) (w_renders w).
Definition set_timer (t : option (Z * Z)) (w : World) : World :=
  mkWorld (w_exports w) (w_now w) (w_req w) (w_res w) (w_end_proxied w)
    (w_finish w) (w_close w) (w_buf w) t (w_out w) (w_renders w).
Definition set_out (o : list string) (w : World) : World :=
  mkWorld (w_exports w) (w_now w) (w_req w) (w_res w) (w_end_proxied w)
    (w_finish w) (w_close w) (w_buf w) (w_timer w) o (w_renders w).
Definition set_renders (n : nat) (w : World) : World :=
  mkWorld (w_exports w) (w_now w) (w_req w) (w_res w) (w_end_proxied w)
    (w_finish w) (w_close w) (w_buf w) (w_timer w) (w_out w) n.

(** Computations that read and change the world and may throw; what was
    changed before an exception stays changed. *)
Definition M (A : Type) : Type := World -> Outcome A * World.

Definition ret {A} (a : A) : M A := fun w => (Ret a, w).
Definition lift {A} (o : Outcome A) : M A := fun w => (o, w).
Definition bind {A B} (m : M A) (k : A -> M B) : M B :=
  fun w =>
    match m w with
    | (Ret a, w') => k a w'
    | (Throw e, w') => (Throw e, w')
    | (Beyond, w') => (Beyond, w')
    end.
Definition gets {A} (f : World -> A) : M A := fun w => (Ret (f w), w).
Definition modify (f : World -> World) : M unit := fun w => (Ret tt, f w).

Notation "x <~ m ; k" := (bind m (fun x => k))
  (at level 100, m at next level, right associativity).
Notation "m ;; k" := (bind m (fun _ => k))
  (at level 100, right associativity).

(** ** Configuration *)

Record Options := mkOptions {
  opt_format : Val;
  opt_immediate : Val;
  opt_skip : Val;
  opt_buffer : Val
}.

Definition no_options : Options := mkOptions VUndef VUndef VUndef VUndef.

(** What [logger] is called with: an options object, or any other value. *)
Inductive LoggerArg :=
| ArgObject (o : Options)
| ArgValue (v : Val).

(** Lines 31-37. *)
Definition normalise (a : LoggerArg) : Options :=
  match a with
  | ArgObject o => o
  | ArgValue v =>
      if truthy v then mkOptions v VUndef VUndef VUndef else no_options
  end.

(** The closure returned by [logger(options)]. The destination stream is
    the world's [w_out]; [lg_buffered] tells whether [stream] was swapped
    for the buffering one. *)
Record Logger := mkLogger {
  lg_immediate : Val;
  lg_skip : Val;
  lg_fmt : Val;
  lg_buffered : bool
}.

Definition defaultBufferDuration : Z := 1000.

(** The property key a value converts to. A function of the host converts
    to its source text, or to what a [toString] of its own returns or
    raises: [user_key] tells, by identity. The source text of the other
    functions is not modelled. *)
Definition to_key (user_key : nat -> Outcome string) (v : Val) : Outcome string :=
  match v with
  | VFun (FUser id) => user_key id
  | _ => to_string v
  end.

(** [exports[options.format]]. *)
Definition lookup_format (user_key : nat -> Outcome string) (e : Registry)
    (f : Val) : Outcome Val :=
  k <- to_key user_key f;; export_get e k.

(** Line 46: [exports[options.format] || options.format || exports.default]. *)
Definition resolve_format (user_key : nat -> Outcome string) (e : Registry)
    (f : Val) : Outcome Val :=
  a <- lookup_format user_key e f;;
  if truthy a then Ret a
  else if truthy f then Ret f
  else export_get e "default".

(** ** The batching writer (lines 56-77) *)

(** [buf.join('')]. *)
Definition join (l : list string) : string := foldr String.append EmptyString l.

(** The timer callback. *)
Definition flush (w : World) : World :=
  match w_buf w with
  | [] => w
  | _ :: _ => set_buf [] (set_out (w_out w ++ [join (w_buf w)]) w)
  end.

(** The delay the runtime gives a timer: a delay below 1 or above
    2147483647 becomes 1. *)
Definition timer_delay (d : Z) : Z :=
  if (d <? 1) || (2147483647 <? d) then 1 else d.

(** [setInterval(callback, interval)]: the world keeps the delay and the
    time the callback is next due. *)
Definition setInterval (interval : Z) : M unit :=
  modify (fun w =>
    set_timer (Some (timer_delay interval, w_now w + timer_delay interval)) w).

(** How often a timer of delay [d], next due at [due], fires up to time
    [t]. *)
Definition fires (d due t : Z) : nat :=
  if t <? due then O else Z.to_nat ((t - due) / d + 1).

(** Time moves on by [dt]; the timer callback runs each time it is due. *)
Definition advance (dt : Z) (w : World) : World :=
  let t := w_now w + dt in
  match w_timer w with
  | None => set_now t w
  | Some (d, due) =>
      let k := fires d due t in
      set_timer (Some (d, due + Z.of_nat k * d)) (set_now t (Nat.iter k flush w))
  end.

(** [stream.write(str)]: the swapped stream pushes on the buffer, the
    destination records the write. The destination is a stream whose
    [write] returns normally, as that of [process.stdout] does. *)
Definition stream_write (buffered : bool) (str : string) : M unit :=
  modify (fun w =>
    if buffered then set_buf (w_buf w ++ [str]) w
    else set_out (w_out w ++ [str]) w).

(** [emitter.removeListener(event, fn)]: the most recently added instance
    goes. *)
Fixpoint remove_first (x : Listener) (l : list Listener) : list Listener :=
  match l with
  | [] => []
  | y :: l' => if decide (x = y) then l' else y :: remove_first x l'
  end.

Definition remove_listener (x : Listener) (l : list Listener) : list Listener :=
  rev (remove_first x (rev l)).

Section Middleware.

Variable user_apply : nat -> list Arg -> Outcome Val.
Variable user_key : nat -> Outcome string.

(** [logger(options)] (lines 30-77). *)
Definition logger (a : LoggerArg) : M Logger :=
  let options := normalise a in
  let immediate := opt_immediate options in
  let skip := or_val (opt_skip options) (VFun FNeverSkip) in
  e <~ gets w_exports;
  fmt <~ lift (resolve_format user_key e (opt_format options));
  fmt' <~ lift (match fmt with
                | VFun _ => Ret fmt
                | _ => f <- compile fmt;; Ret (VFun f)
                end);
  let buffer := opt_buffer options in
  (if truthy buffer then
     modify (set_buf []);;
     setInterval (match buffer with
                  | VNum n => n
                  | _ => defaultBufferDuration
                  end)
   else ret tt);;
  ret (mkLogger immediate skip fmt' (truthy buffer)).

(** [logRequest()] (lines 85-92). *)
Definition logRequest (L : Logger) : M unit :=
  modify (set_finish (remove_listener LogRequest));;
  modify (set_close (remove_listener LogRequest));;
  rq <~ gets w_req;
  rs <~ gets w_res;
  s <~ lift (call_skip user_apply (lg_skip L) rq rs);
  if truthy s then ret tt
  else
    e <~ gets w_exports;
    modify (fun w => set_renders (S (w_renders w)) w);;
    line <~ lift (call_render user_apply (lg_fmt L) e rq rs);
    if nullish line then ret tt
    else
      str <~ lift (to_string line);
      stream_write (lg_buffered L) (str +:+ str1 lf).

(** The middleware (lines 79-112); [next()] hands over to the rest of the
    application, whose doings arrive as events. *)
Definition middleware (L : Logger) : M unit :=
  modify (fun w =>
    let r := w_req w in
    let sock := socket r in
    set_req (mkRequest (originalUrl r) (url r) (method r) (headers r) (ip r)
               sock (httpVersionMajor r) (httpVersionMinor r)
               (VNum (w_now w))
               (match socket_socket sock with
                | Some a => a
                | None => remoteAddress sock
                end)) w);;
  (if truthy (lg_immediate L) then logRequest L
   else
     modify (set_finish (fun l => (l ++ [LogRequest])%list));;
     modify (set_close (fun l => (l ++ [LogRequest])%list)));;
  modify (set_end_proxied true).

(** Calling one listener. *)
Definition call_listener (L : Logger) (x : Listener) : M unit :=
  match x with
  | LogRequest => logRequest L
  | Foreign _ => ret tt
  end.

(** [res.emit(event)]: the listeners registered when the event is emitted
    run in order; an exception ends the emission. *)
Fixpoint call_all (L : Logger) (l : list Listener) : M unit :=
  match l with
  | [] => ret tt
  | x :: l' => call_listener L x;; call_all L l'
  end.

(** What happens to a cycle once the middleware has run; [Define name v]
    is the application calling [exports.token(name, v)]. *)
Inductive Event :=
| Finish
| Close
| SetHeader (name : string) (v : Val)
| WriteHead (status : Val)
| End (chunk : Val)
| Advance (dt : Z)
| Define (name : string) (v : Val).

Definition step (L : Logger) (ev : Event) : M unit :=
  match ev with
  | Finish => l <~ gets w_finish; call_all L l
  | Close => l <~ gets w_close; call_all L l
  | SetHeader name v =>
      modify (fun w =>
        set_res (mkResponse (headersSent (w_res w)) (statusCode (w_res w))
                   (Some (<[toLowerCase name := v]> (default ∅ (_headers (w_res w)))))
                   (_body (w_res w))) w)
  | WriteHead status =>
      modify (fun w =>
        set_res (mkResponse (VBool true) status (_headers (w_res w))
                   (_body (w_res w))) w)
  | End chunk =>
      modify (fun w =>
        if w_end_proxied w then
          set_end_proxied false
            (set_res (mkResponse (headersSent (w_res w)) (statusCode (w_res w))
                        (_headers (w_res w)) chunk) w)
        else w)
  | Advance dt => modify (advance dt)
  | Define name v =>
      e <~ gets w_exports;
      e' <~ lift (exports_token name v e);
      modify (set_exports (fun _ => e'))
  end.

(** A run of events; an exception thrown by one event does not keep the
    next from happening. *)
Fixpoint run (L : Logger) (evs : list Event) (w : World) : World :=
  match evs with
  | [] => w
  | ev :: evs' => run L evs' (snd (step L ev w))
  end.


End Middleware.

(** A cycle at the moment the middleware is entered. *)
Definition fresh (e : Registry) (t : Z) (tm : option (Z * Z)) (rq : Request)
    (rs : Response) (on_finish on_close : list nat) : World :=
  mkWorld e t rq rs false (map Foreign on_finish) (map Foreign on_close)
    [] tm [] O.

(** [logRequest] unsubscribed from both completion signals. *)
Definition disarm (w : World) : World :=
  set_close (remove_listener LogRequest) (set_finish (remove_listener LogRequest) w).

(** How often [logRequest] is subscribed in a list of listeners. *)
Definition subscribed (l : list Listener) : nat :=
  count_occ Listener_eq_dec l LogRequest.

(** The cycle has not logged: nothing rendered, nothing written. *)
Definition armed (w : World) : Prop :=
  w_renders w = O /\ w_buf w = [] /\ w_out w = []
  /\ (subscribed (w_finish w) <= 1)%nat /\ (subscribed (w_close w) <= 1)%nat.

(** The cycle waits for a completion signal: it has not logged and
    [logRequest] is subscribed once to each. *)
Definition waiting (w : World) : Prop :=
  w_renders w = O /\ w_buf w = [] /\ w_out w = []
  /\ subscribed (w_finish w) = 1%nat /\ subscribed (w_close w) = 1%nat.

(** [logRequest] has run and is subscribed nowhere. *)
Definition settled (w : World) : Prop :=
  subscribed (w_finish w) = O /\ subscribed (w_close w) = O
  /\ (w_renders w <= 1)%nat
  /\ (length (w_buf w) + length (w_out w) <= w_renders w)%nat.

(** The cycle is over without a line: nothing rendered, nothing buffered,
    nothing written, [logRequest] subscribed nowhere. *)
Definition quiet (w : World) : Prop :=
  subscribed (w_finish w) = O /\ subscribed (w_close w) = O
  /\ w_renders w = O /\ w_buf w = [] /\ w_out w = [].

(** The completion signals. *)
Definition is_signal (ev : Event) : bool :=
  match ev with
  | Finish | Close => true
  | _ => false
  end.

(** [compile(t)(tokens, req, res)]. *)
Definition render_template (user_apply : nat -> list Arg -> Outcome Val)
    (t : Val) (tokens : Registry) (rq : Request) (rs : Response) : Outcome Val :=
  f <- compile t;; call_render user_apply (VFun f) tokens rq rs.

(** ** Predicates on templates and names *)

Fixpoint all_name_chars (s : string) : bool :=
  match s with
  | EmptyString => true
  | String c r => is_name_char c && all_name_chars r
  end.

(** A name the token pattern captures whole: two or more word or dash
    characters. *)
Definition valid_name (s : string) : bool :=
  all_name_chars s && (2 <=? String.length s)%nat.

Definition starts_name2 (s : string) : bool :=
  match s with
  | String a (String b _) => is_name_char a && is_name_char b
  | _ => false
  end.

(** Some colon of [s] is followed by two name characters. *)
Fixpoint has_token_ref (s : string) : bool :=
  match s with
  | EmptyString => false
  | String c r => (Ascii.eqb c ":" && starts_name2 r) || has_token_ref r
  end.

(** No backslash and no line terminator. *)
Fixpoint plain (s : string) : bool :=
  match s with
  | EmptyString => true
  | String c r =>
      negb (Ascii.eqb c bs) && negb (Ascii.eqb c lf) && negb (Ascii.eqb c cr)
      && plain r
  end.

(** The text after a reference would be taken into it: it starts with a
    name character or with an opening bracket. *)
Definition continues (s : string) : bool :=
  match s with
  | EmptyString => false
  | String c _ => is_name_char c || Ascii.eqb c "["
  end.

(** ** Scenarios *)

(** Configure a logger, run its middleware on the cycle of [w], then let
    the events happen. *)
Definition handle (user_apply : nat -> list Arg -> Outcome Val)
    (user_key : nat -> Outcome string)
    (a : LoggerArg) (evs : list Event) (w : World) : Outcome World :=
  match logger user_key a w with
  | (Ret L, w1) => Ret (run user_apply L evs (snd (middleware user_apply L w1)))
  | (Throw e, _) => Throw e
  | (Beyond, _) => Beyond
  end.

(** Lines handed to the stream one after the other, each after a wait. *)
Definition append_lines (buffered : bool) (items : list (Z * string))
    (w : World) : World :=
  fold_left
    (fun w p => snd (stream_write buffered (snd p) (advance (fst p) w)))
    items w.

Definition elapsed (items : list (Z * string)) : Z :=
  fold_right Z.add 0 (map fst items).

(** The interval [logger] hands to [setInterval] (lines 59-61), as the
    runtime takes it. *)
Definition flush_interval (buffer : Val) : Z :=
  timer_delay (match buffer with
               | VNum n => n
               | _ => defaultBufferDuration
               end).

(** [exports] after the call [exports.token(name, fn)]; unchanged where
    the call does not return. *)
Definition registered (name : string) (fn : Val) (e : Registry) : Registry :=
  match exports_token name fn e with
  | Ret e' => e'
  | _ => e
  end.


(** A host application with three functions: number 0 returns [true],
    number 1 throws, number 2 returns the number 0; any other returns
    [undefined]. *)
Definition sample_user (id : nat) (args : list Arg) : Outcome Val :=
  match id with
  | 0%nat => Ret (VBool true)
  | 1%nat => Throw (Thrown (VStr "boom"))
  | 2%nat => Ret (VNum 0)
  | _ => Ret VUndef
  end.

(** The functions of that application convert to one source text. *)
Definition sample_key (id : nat) : Outcome string :=
  Ret "function () { [native code] }".

Definition sample_request : Request :=
  mkRequest VUndef (VStr "/") (VStr "GET") ∅ VUndef
    (mkSocket (VStr "127.0.0.1") None) (VNum 1) (VNum 1) VUndef VUndef.

Definition sample_response : Response :=
  mkResponse (VBool false) (VNum 200) None VUndef.

Definition sample_world : World :=
  fresh initial_exports 0 None sample_request sample_response [7%nat] [].

(** The inline format of the specification's example. *)
Definition example_format : string := apos_to_dq "{'m':':method','s':':status'}".

(** The logger [logger(example_format)] returns. *)
Definition example_logger_value : Logger :=
  mkLogger VUndef (VFun FNeverSkip)
    (VFun (FCompiled (compile_js example_format))) false.

(** A logger whose skip predicate is function 0 of [sample_user]. *)
Definition skipping_logger : Logger :=
  mkLogger VUndef (VFun (FUser 0))
    (VFun (FCompiled (compile_js example_format))) false.

(** The sample cycle once the response has its status. *)
Definition answered_world : World :=
  set_res (mkResponse (VBool true) (VNum 404) None VUndef) sample_world.

Definition buffering_options : Options :=
  mkOptions (VStr "x") VUndef VUndef (VBool true).

Definition buffering_logger : Logger :=
  mkLogger VUndef (VFun FNeverSkip) (VFun (FCompiled (compile_js "x"))) true.

Definition buffering_world : World :=
  set_timer (Some (1000, 1000)) sample_world.

(** ** The template as chunks and references *)

(** A template read as a leading literal chunk and a sequence of token
    references, each with the literal chunk that follows it. The references
    are found on the template itself with the pattern of line 125, so this
    is what the compiled body is expected to stand for. *)
Fixpoint chunks_fuel (fuel : nat) (t : string) : string * list Ref :=
  match fuel with
  | O => (t, [])
  | S fuel' =>
      match t with
      | EmptyString => (EmptyString, [])
      | String c r =>
          if Ascii.eqb c ":" then
            let '(name, rest) := span_name r in
            if (2 <=? String.length name)%nat then
              match match_arg rest with
              | Some (arg, rest') =>
                  let '(l, refs) := chunks_fuel fuel' rest' in
                  (EmptyString, mkRef name arg "-" l :: refs)
              | None =>
                  let '(l, refs) := chunks_fuel fuel' rest in
                  (EmptyString, mkRef name "undefined" "-" l :: refs)
              end
            else let '(l, refs) := chunks_fuel fuel' r in (String c l, refs)
          else let '(l, refs) := chunks_fuel fuel' r in (String c l, refs)
      end
  end.

Definition chunks (t : string) : string * list Ref :=
  chunks_fuel (String.length t) t.

(** What follows the opening quote of a body's first literal: that
    literal, then the references. *)
Definition parse_tail (x : string) : option (string * list Ref) :=
  '(first, s2) ← lex_string x;
  refs ← parse_refs (S (String.length s2)) s2;
  Some (first, refs).

(** ** Templates written from their pieces *)

(** One token reference as it is written in a template, [:name] or
    [:name[arg]], and the literal text up to the next reference. *)
Record Piece := mkPiece {
  piece_name : string;
  piece_arg : option string;
  piece_text : string
}.

Definition piece_source (p : Piece) : string :=
  String ":" (piece_name p)
  +:+ match piece_arg p with
      | Some a => "[" +:+ a +:+ "]"
      | None => EmptyString
      end
  +:+ piece_text p.

Fixpoint pieces_source (ps : list Piece) : string :=
  match ps with
  | [] => EmptyString
  | p :: ps' => piece_source p +:+ pieces_source ps'
  end.

(** The template that starts with the literal [first] and goes on with the
    pieces. *)
Definition template_of (first : string) (ps : list Piece) : string :=
  first +:+ pieces_source ps.

(** The reference a piece stands for once compiled. *)
Definition ref_of (p : Piece) : Ref :=
  mkRef (piece_name p) (default "undefined" (piece_arg p)) "-" (piece_text p).

Fixpoint no_bracket (s : string) : bool :=
  match s with
  | EmptyString => true
  | String c r => negb (Ascii.eqb c "]") && no_bracket r
  end.

(** A piece the pattern of line 125 reads back as written: a valid name; an
    argument, if any, that is not empty and has no closing bracket; literal
    text without backslash, line terminator or token reference, which does
    not go on the name or open an argument of its own. *)
Definition piece_ok (p : Piece) : bool :=
  valid_name (piece_name p)
  && plain (piece_text p) && negb (has_token_ref (piece_text p))
  && match piece_arg p with
     | Some a =>
         negb (String.eqb a EmptyString) && no_bracket a && plain a
     | None => negb (continues (piece_text p))
     end.

(** ** Notions used by the further properties *)

(** A character put in front of the first chunk. *)
Definition cons_first (c : ascii) (p : string * list Ref) : string * list Ref :=
  (String c (fst p), snd p).

Definition starts_name (s : string) : bool :=
  match s with
  | EmptyString => false
  | String c _ => is_name_char c
  end.

(** A bracket argument the pattern captures whole and the body carries
    unchanged. *)
Definition arg_ok (a : string) : bool :=
  negb (String.eqb a EmptyString) && no_bracket a && plain a.

(** A reference renders: its extractor returns a value whose substitute
    converts to a string. *)
Definition renders (user_apply : nat -> list Arg -> Outcome Val)
    (tokens : Registry) (rq : Request) (rs : Response)
    (r : Ref) : Prop :=
  exists v s,
    call_named user_apply tokens (ref_name r) rq rs (ref_arg r) = Ret v
    /\ to_string (or_val v (VStr (ref_default r))) = Ret s.

(** A name under which the registry holds one of the built-in
    extractors. *)
Definition builtin_name (e : Registry) (r : Ref) : Prop :=
  exists t, export_get e (ref_name r) = Ret (VFun (FToken t)).

(** One call of the registration functions. *)
Inductive Registration :=
| AsToken (name : string) (fn : Val)
| AsFormat (name : string) (fmt : Val).

Definition reg_name (r : Registration) : string :=
  match r with
  | AsToken n _ | AsFormat n _ => n
  end.

Definition reg_value (r : Registration) : Val :=
  match r with
  | AsToken _ v | AsFormat _ v => v
  end.

Definition register (r : Registration) (e : Registry) : Outcome Registry :=
  match r with
  | AsToken n v => exports_token n v e
  | AsFormat n v => exports_format n v e
  end.

(** The calls of a list, in order. *)
Definition register_all (rs : list Registration) (e : Registry)
    : Outcome Registry :=
  in_order (map register rs) e.

(** The value of the last registration of the list under the name [n]. *)
Fixpoint last_registered (n : string) (rs : list Registration) : option Val :=
  match rs with
  | [] => None
  | r :: rs' =>
      match last_registered n rs' with
      | Some v => Some v
      | None => if String.eqb (reg_name r) n then Some (reg_value r) else None
      end
  end.

(** A name that a registration can use without replacing the registration
    functions themselves, and that is not left to the engine. *)
Definition registrable (n : string) : bool :=
  negb (String.eqb n "token") && negb (String.eqb n "format")
  && match export_slot n with
     | SEngine => false
     | _ => true
     end.

(** Lines 46-49: the render function [logger] settles on. *)
Definition settle_format (user_key : nat -> Outcome string) (e : Registry)
    (f : Val) : Outcome Val :=
  fmt <- resolve_format user_key e f;;
  match fmt with
  | VFun _ => Ret fmt
  | _ => c <- compile fmt;; Ret (VFun c)
  end.

(** The world once [logger] has set up its writer (lines 56-69). *)
Definition writer_set_up (buffer : Val) (w : World) : World :=
  if truthy buffer then
    set_timer (Some (timer_delay (match buffer with
                                  | VNum n => n
                                  | _ => defaultBufferDuration
                                  end),
                     w_now w + timer_delay (match buffer with
                                            | VNum n => n
                                            | _ => defaultBufferDuration
                                            end)))
      (set_buf [] w)
  else w.

(** The format the logger ends up with. *)
Definition configured (user_key : nat -> Outcome string) (a : LoggerArg)
    (w : World) (fmt : Val) : Prop :=
  fst (logger user_key a w) =
  Ret (mkLogger (opt_immediate (normalise a))
         (or_val (opt_skip (normalise a)) (VFun FNeverSkip))
         fmt (truthy (opt_buffer (normalise a)))).

(** Everything handed over so far: what the destination has, then what is
    buffered. *)
Definition delivered (w : World) : string := join (w_out w) +:+ join (w_buf w).

(** The cycle once the middleware has recorded the arrival time and the
    remote address (lines 80-83). *)
Definition enter (w : World) : World :=
  let r := w_req w in
  let sock := socket r in
  set_req (mkRequest (originalUrl r) (url r) (method r) (headers r) (ip r)
             sock (httpVersionMajor r) (httpVersionMinor r)
             (VNum (w_now w))
             (match socket_socket sock with
              | Some a => a
              | None => remoteAddress sock
              end)) w.

(** [logRequest] subscribed to both completion signals. *)
Definition subscribe (w : World) : World :=
  set_close (fun l => (l ++ [LogRequest])%list)
    (set_finish (fun l => (l ++ [LogRequest])%list) w).

Definition is_end (ev : Event) : bool :=
  match ev with
  | End _ => true
  | _ => false
  end.

(** The cycle waits with [logRequest] last in line for both signals. *)
Definition listening (fl cl : list nat) (w : World) : Prop :=
  w_finish w = (map Foreign fl ++ [LogRequest])%list
  /\ w_close w = (map Foreign cl ++ [LogRequest])%list
  /\ w_renders w = O /\ w_buf w = [] /\ w_out w = [].


(** The timer is due within one interval. *)
Definition timer_due_within (d : Z) (w : World) : Prop :=
  exists due, w_timer w = Some (d, due) /\ due <= w_now w + d.

(** A request with a [host] header. *)
Definition hosted_request : Request :=
  mkRequest VUndef (VStr "/") (VStr "GET") {["host" := VStr "example.org"]} VUndef
    (mkSocket (VStr "127.0.0.1") None) (VNum 1) (VNum 1) VUndef VUndef.

(** A logger that logs on entry. *)
Definition immediate_logger : Logger :=
  mkLogger (VBool true) (VFun FNeverSkip)
    (VFun (FCompiled (compile_js example_format))) false.

(** A logger whose format refers to a token nobody has registered yet. *)
Definition verb_logger : Logger :=
  mkLogger VUndef (VFun FNeverSkip) (VFun (FCompiled (compile_js ":verb"))) false.

(** ** Lemmas on the compiler *)

(** The text emitted for a reference, as the callback of line 126 builds
    it. *)
Example placeholder_text :
  placeholder "status" None =
  str1 dq +:+ str1 lf
  +:+ apos_to_dq "    + (tokens['status'](req, res, 'undefined') || '-') + '".
Proof. reflexivity. Qed.

Example compile_js_text :
  compile_js (apos_to_dq "'a' :res[content-length]") =
  apos_to_dq "  return '\'a\' '" +:+ str1 lf
  +:+ apos_to_dq "    + (tokens['res'](req, res, 'content-length') || '-') + '';".
Proof. reflexivity. Qed.

#[local] Arguments String.append !s1 s2 : simpl nomatch.
#[local] Arguments exports_token : simpl never.

(** The case of [Define] in a proof by cases on the event: the call of
    [exports.token] returns, raises or lies outside the model. *)
Ltac define_case w :=
  unfold bind, gets, lift, modify; cbn [fst snd];
  destruct (exports_token _ _ (w_exports w)); cbn [fst snd].

(** ** Lemmas on the properties of [exports] *)

Lemma export_get_plain e k :
  export_slot k = SPlain -> export_get e k = Ret (prop e k).
Proof. intros H. unfold export_get. now rewrite H. Qed.

(** A name under which the lookup yields [undefined] is one an assignment
    can write. *)
Lemma export_get_undef e k : export_get e k = Ret VUndef -> assignable k = true.
Proof.
  unfold export_get, assignable, export_slot.
  destruct (String.eqb k "name"); [discriminate|].
  destruct (String.eqb k "length"); [discriminate|].
  destruct (name_in k _); [discriminate|].
  now destruct (name_in k _).
Qed.

Lemma export_set_assignable e k v :
  assignable k = true -> export_set e k v = Ret (<[k := v]> e).
Proof.
  unfold assignable, export_set. now destruct (export_slot k).
Qed.

Lemma export_get_insert e k v :
  assignable k = true -> export_get (<[k := v]> e) k = Ret v.
Proof.
  unfold assignable, export_get, prop.
  destruct (export_slot k); try discriminate; intros _;
    now rewrite lookup_insert_eq.
Qed.

Lemma export_get_insert_ne e k m v :
  k <> m -> export_get (<[k := v]> e) m = export_get e m.
Proof.
  intros Hne. unfold export_get, prop.
  destruct (export_slot m); try reflexivity; now rewrite lookup_insert_ne.
Qed.

(** Loading the module returns: every registration of lines 164-309 takes
    effect. *)
Lemma load_returns : load = Ret initial_exports.
Proof. vm_compute. reflexivity. Qed.

(** Calling what is not a function raises a TypeError. *)
Lemma call_token_not_function (user_apply : nat -> list Arg -> Outcome Val)
    v rq rs a :
  (forall f, v <> VFun f) -> call_token user_apply v rq rs a = Throw TypeError.
Proof. intros H. destruct v; try reflexivity. now destruct (H f). Qed.

(** Under a name the function object has nothing of its own for, the call
    is that of the registered value. *)
Lemma call_named_plain (user_apply : nat -> list Arg -> Outcome Val)
    name tokens rq rs a f :
  export_slot name = SPlain -> prop tokens name = f ->
  call_named user_apply tokens name rq rs a = call_token user_apply f rq rs a.
Proof.
  intros Hs Hp. unfold call_named. now rewrite (export_get_plain _ _ Hs), Hp.
Qed.

Lemma append_nil_r (s : string) : s +:+ EmptyString = s.
Proof. induction s as [|c s IH]; simpl; [reflexivity | now rewrite IH]. Qed.

Lemma append_assoc (a b c : string) : (a +:+ b) +:+ c = a +:+ (b +:+ c).
Proof. induction a as [|x a IH]; simpl; [reflexivity | now rewrite IH]. Qed.

Lemma name_char_not_dq c : is_name_char c = true -> Ascii.eqb c dq = false.
Proof.
  destruct (Ascii.eqb_spec c dq) as [->|]; [vm_compute; discriminate | reflexivity].
Qed.

Lemma name_char_plain c :
  is_name_char c = true ->
  Ascii.eqb c bs = false /\ Ascii.eqb c lf = false /\ Ascii.eqb c cr = false.
Proof.
  intros H. repeat split.
  - destruct (Ascii.eqb_spec c bs) as [->|]; [vm_compute in H; discriminate | reflexivity].
  - destruct (Ascii.eqb_spec c lf) as [->|]; [vm_compute in H; discriminate | reflexivity].
  - destruct (Ascii.eqb_spec c cr) as [->|]; [vm_compute in H; discriminate | reflexivity].
Qed.

Lemma escape_quotes_name s : all_name_chars s = true -> escape_quotes s = s.
Proof.
  induction s as [|c s IH]; simpl; [reflexivity|].
  intros [Hc Hs]%andb_prop. rewrite (name_char_not_dq _ Hc), IH; auto.
Qed.

Lemma span_name_all s : all_name_chars s = true -> span_name s = (s, EmptyString).
Proof.
  induction s as [|c s IH]; simpl; [reflexivity|].
  intros [Hc Hs]%andb_prop. rewrite Hc, IH; auto.
Qed.

(** A literal without escapes reads back as itself. *)
Lemma lex_string_plain s rest :
  plain s = true ->
  (forall c, In c (list_ascii_of_string s) -> Ascii.eqb c dq = false) ->
  lex_string (s +:+ String dq rest) = Some (s, rest).
Proof.
  induction s as [|c s IH]; simpl; intros Hp Hq.
  - reflexivity.
  - apply andb_prop in Hp as [Hp Hs]. apply andb_prop in Hp as [Hp Hcr].
    apply andb_prop in Hp as [Hbs Hlf].
    apply negb_true_iff in Hbs, Hlf, Hcr.
    rewrite (Hq c (or_introl eq_refl)), Hbs, Hlf, Hcr. simpl.
    rewrite IH; auto.
Qed.

Lemma all_name_chars_plain s : all_name_chars s = true -> plain s = true.
Proof.
  induction s as [|c s IH]; simpl; [reflexivity|].
  intros [Hc Hs]%andb_prop.
  destruct (name_char_plain _ Hc) as (-> & -> & ->). simpl. auto.
Qed.

Lemma all_name_chars_no_dq s c :
  all_name_chars s = true -> In c (list_ascii_of_string s) -> Ascii.eqb c dq = false.
Proof.
  induction s as [|a s IH]; simpl; [tauto|].
  intros [Ha Hs]%andb_prop [<-|Hin]; [now apply name_char_not_dq | auto].
Qed.

Lemma lex_string_name s rest :
  all_name_chars s = true -> lex_string (s +:+ String dq rest) = Some (s, rest).
Proof.
  intros H. apply lex_string_plain; [now apply all_name_chars_plain|].
  intros c. now apply all_name_chars_no_dq.
Qed.

Lemma starts_name2_span r :
  starts_name2 r = false ->
  (2 <=? String.length (fst (span_name r)))%nat = false.
Proof.
  destruct r as [|a [|b r]]; simpl; [reflexivity | |].
  - destruct (is_name_char a); reflexivity.
  - destruct (is_name_char a); [|reflexivity].
    destruct (is_name_char b); [discriminate|]. reflexivity.
Qed.

(** Without a token reference the global replace changes nothing. *)
Lemma replace_tokens_fuel_noref fuel s :
  has_token_ref s = false -> replace_tokens_fuel fuel s = s.
Proof.
  revert s. induction fuel as [|fuel IH]; intros s H; [reflexivity|].
  destruct s as [|c r]; [reflexivity|]. simpl in H |- *.
  apply orb_false_elim in H as [Hc Hr].
  destruct (Ascii.eqb c ":").
  - simpl in Hc. pose proof (starts_name2_span _ Hc) as Hn.
    destruct (span_name r) as [name rest]. simpl in Hn. rewrite Hn.
    now rewrite IH.
  - now rewrite IH.
Qed.

Lemma starts_name2_escape s : starts_name2 (escape_quotes s) = starts_name2 s.
Proof.
  destruct s as [|a [|b r]]; simpl; [reflexivity | |].
  - destruct (Ascii.eqb a dq); reflexivity.
  - destruct (Ascii.eqb_spec a dq) as [->|Ha]; [reflexivity|].
    destruct (Ascii.eqb_spec b dq) as [->|Hb]; simpl; [|reflexivity].
    now rewrite !andb_false_r.
Qed.

Lemma has_token_ref_escape s : has_token_ref (escape_quotes s) = has_token_ref s.
Proof.
  induction s as [|c r IH]; [reflexivity|]. simpl.
  destruct (Ascii.eqb_spec c dq) as [->|Hc]; simpl.
  - exact IH.
  - now rewrite starts_name2_escape, IH.
Qed.

(** An escaped literal without backslashes reads back as the text it was
    made from. *)
Lemma lex_string_escape s rest :
  plain s = true ->
  lex_string (escape_quotes s +:+ String dq rest) = Some (s, rest).
Proof.
  induction s as [|c s IH]; simpl; intros Hp; [reflexivity|].
  apply andb_prop in Hp as [Hp Hs]. apply andb_prop in Hp as [Hp Hcr].
  apply andb_prop in Hp as [Hbs Hlf].
  apply negb_true_iff in Hbs, Hlf, Hcr.
  destruct (Ascii.eqb_spec c dq) as [->|Hc]; simpl.
  - now rewrite IH.
  - apply Ascii.eqb_neq in Hc. rewrite Hc, Hlf, Hcr, Hbs. simpl. now rewrite IH.
Qed.

Lemma length_append (a b : string) :
  String.length (a +:+ b) = (String.length a + String.length b)%nat.
Proof. induction a as [|c a IH]; simpl; [reflexivity | now rewrite IH]. Qed.

Lemma escape_quotes_app a b :
  escape_quotes (a +:+ b) = escape_quotes a +:+ escape_quotes b.
Proof.
  induction a as [|c a IH]; simpl; [reflexivity|].
  destruct (Ascii.eqb c dq); simpl; now rewrite IH.
Qed.

Lemma continues_escape s : continues (escape_quotes s) = continues s.
Proof.
  destruct s as [|c s]; simpl; [reflexivity|].
  destruct (Ascii.eqb_spec c dq) as [->|]; reflexivity.
Qed.

Lemma span_name_app name post :
  all_name_chars name = true -> continues post = false ->
  span_name (name +:+ post) = (name, post).
Proof.
  intros Hn Hp. induction name as [|c name IH]; simpl in *.
  - destruct post as [|c post]; [reflexivity|]. simpl in *.
    apply orb_false_elim in Hp as [-> _]. reflexivity.
  - apply andb_prop in Hn as [Hc Hn]. now rewrite Hc, IH.
Qed.

Lemma match_arg_none post : continues post = false -> match_arg post = None.
Proof.
  destruct post as [|c post]; [reflexivity|]. simpl.
  intros [_ H]%orb_false_elim. apply Ascii.eqb_neq in H.
  unfold match_arg.
  destruct c as [[] [] [] [] [] [] [] []]; try reflexivity. congruence.
Qed.

(** A colon that starts no reference starts none when a colon follows
    the text after it. *)
Lemma starts_name2_span_colon r rest :
  starts_name2 r = false ->
  (2 <=? String.length (fst (span_name (r +:+ String ":" rest))))%nat = false.
Proof.
  destruct r as [|a [|b r]]; simpl; [reflexivity | |].
  - destruct (is_name_char a); reflexivity.
  - destruct (is_name_char a); [|reflexivity].
    destruct (is_name_char b); [discriminate|]. reflexivity.
Qed.

(** Literal text before a colon is copied by the global replace. *)
Lemma replace_tokens_fuel_prefix pre fuel rest :
  has_token_ref pre = false ->
  replace_tokens_fuel (String.length pre + fuel) (pre +:+ String ":" rest)
  = pre +:+ replace_tokens_fuel fuel (String ":" rest).
Proof.
  induction pre as [|c pre IH]; intros H; [reflexivity|].
  simpl in H. apply orb_false_elim in H as [Hc Hr].
  change (String.length (String c pre) + fuel)%nat
    with (S (String.length pre + fuel)).
  change (String c pre +:+ String ":" rest)
    with (String c (pre +:+ String ":" rest)).
  cbn [replace_tokens_fuel].
  destruct (Ascii.eqb c ":").
  - simpl in Hc. pose proof (starts_name2_span_colon _ rest Hc) as Hn.
    destruct (span_name (pre +:+ String ":" rest)) as [name rest'].
    cbn [fst] in Hn. rewrite Hn. now rewrite IH.
  - now rewrite IH.
Qed.

(** The body compiled from one reference to a valid name between literal
    texts. *)
Lemma compile_js_embedded pre name post :
  valid_name name = true ->
  has_token_ref pre = false -> has_token_ref post = false ->
  continues post = false ->
  compile_js (pre +:+ String ":" name +:+ post) =
  "  return " +:+ str1 dq +:+ escape_quotes pre +:+ placeholder name None
  +:+ escape_quotes post +:+ str1 dq +:+ ";".
Proof.
  intros [Hall Hlen]%andb_prop Hpre Hpost Hcont.
  assert (H : replace_tokens (escape_quotes (pre +:+ String ":" name +:+ post))
              = escape_quotes pre +:+ placeholder name None +:+ escape_quotes post).
  { unfold replace_tokens. rewrite escape_quotes_app.
    change (escape_quotes (String ":" name +:+ post))
      with (String ":" (escape_quotes (name +:+ post))).
    rewrite escape_quotes_app, (escape_quotes_name _ Hall).
    rewrite length_append.
    rewrite replace_tokens_fuel_prefix by now rewrite has_token_ref_escape.
    f_equal.
    cbn [String.length replace_tokens_fuel Ascii.eqb Bool.eqb].
    rewrite span_name_app by (auto; now rewrite continues_escape).
    rewrite Hlen, match_arg_none by now rewrite continues_escape.
    now rewrite replace_tokens_fuel_noref by now rewrite has_token_ref_escape. }
  unfold compile_js. rewrite H. now rewrite !append_assoc.
Qed.

Lemma parse_body_embedded pre name post :
  valid_name name = true ->
  plain pre = true -> has_token_ref pre = false ->
  plain post = true -> has_token_ref post = false ->
  continues post = false ->
  parse_body (compile_js (pre +:+ String ":" name +:+ post)) =
  Some (mkBody pre [mkRef name "undefined" "-" post]).
Proof.
  intros Hv Hppre Hpre Hppost Hpost Hcont.
  rewrite (compile_js_embedded _ _ _ Hv Hpre Hpost Hcont).
  apply andb_prop in Hv as [Hall _].
  unfold parse_body, placeholder. simpl.
  rewrite (lex_string_escape _ _ Hppre). simpl.
  rewrite !append_assoc. simpl.
  rewrite (lex_string_name _ _ Hall). simpl.
  rewrite (lex_string_escape _ _ Hppost). simpl. reflexivity.
Qed.

Lemma parse_body_single name :
  valid_name name = true ->
  parse_body (compile_js (String ":" name)) =
  Some (mkBody EmptyString [mkRef name "undefined" "-" EmptyString]).
Proof.
  intros Hv.
  pose proof (parse_body_embedded EmptyString name EmptyString Hv
                eq_refl eq_refl eq_refl eq_refl eq_refl) as H.
  simpl in H. now rewrite append_nil_r in H.
Qed.

Lemma parse_body_literal t :
  has_token_ref t = false -> plain t = true ->
  parse_body (compile_js t) = Some (mkBody t []).
Proof.
  intros Href Hp. unfold compile_js, replace_tokens.
  rewrite replace_tokens_fuel_noref by now rewrite has_token_ref_escape.
  unfold parse_body. simpl. rewrite (lex_string_escape _ _ Hp). reflexivity.
Qed.

(** *** The fuel of the scanners is enough *)

Lemma span_name_length s :
  (String.length (fst (span_name s)) + String.length (snd (span_name s)))%nat
  = String.length s.
Proof.
  induction s as [|c s IH]; simpl; [reflexivity|].
  destruct (is_name_char c); [|reflexivity].
  destruct (span_name s) as [n r]. simpl in *. now rewrite IH.
Qed.

Lemma span_arg_length s :
  (String.length (fst (span_arg s)) + String.length (snd (span_arg s)))%nat
  = String.length s.
Proof.
  induction s as [|c s IH]; simpl; [reflexivity|].
  destruct (Ascii.eqb c "]"); [reflexivity|].
  destruct (span_arg s) as [n r]. simpl in *. now rewrite IH.
Qed.

Lemma match_arg_shorter s a r :
  match_arg s = Some (a, r) -> (String.length r < String.length s)%nat.
Proof.
  destruct s as [|c s]; [discriminate|]. unfold match_arg.
  destruct (Ascii.eqb_spec c "[") as [->|Hc].
  - pose proof (span_arg_length s) as Hl.
    destruct (span_arg s) as [[|x n] [|y rest]]; try discriminate.
    destruct (Ascii.eqb_spec y "]") as [->|Hy].
    + intros [= <- <-]. simpl in *. lia.
    + destruct y as [[] [] [] [] [] [] [] []]; try discriminate. congruence.
  - destruct c as [[] [] [] [] [] [] [] []]; try discriminate. congruence.
Qed.

(** With fuel for every character the global replace does not depend on
    its fuel. *)
Lemma replace_tokens_fuel_any f1 f2 s :
  (String.length s <= f1)%nat -> (String.length s <= f2)%nat ->
  replace_tokens_fuel f1 s = replace_tokens_fuel f2 s.
Proof.
  revert f2 s. induction f1 as [|f1 IH]; intros f2 s H1 H2.
  - destruct s; [|simpl in H1; lia]. now destruct f2.
  - destruct f2 as [|f2]; [destruct s; [reflexivity | simpl in H2; lia]|].
    destruct s as [|c r]; [reflexivity|]. simpl in H1, H2.
    cbn [replace_tokens_fuel].
    pose proof (span_name_length r) as Hl.
    destruct (span_name r) as [name rest]. simpl in Hl.
    destruct (match_arg rest) as [[arg rest']|] eqn:Ea.
    + apply match_arg_shorter in Ea.
      rewrite (IH f2 rest') by lia. now rewrite (IH f2 r) by lia.
    + rewrite (IH f2 rest) by lia. now rewrite (IH f2 r) by lia.
Qed.

Lemma replace_tokens_fuel_enough fuel s :
  (String.length s <= fuel)%nat -> replace_tokens_fuel fuel s = replace_tokens s.
Proof. intros H. now apply replace_tokens_fuel_any. Qed.

Lemma lex_string_shorter s v r :
  lex_string s = Some (v, r) -> (String.length r < String.length s)%nat.
Proof.
  assert (H : forall n s v r, (String.length s <= n)%nat ->
            lex_string s = Some (v, r) ->
            (String.length r < String.length s)%nat);
    [|now apply (H (String.length s))].
  clear. induction n as [|n IH]; intros s v r Hn.
  - destruct s; [discriminate | simpl in Hn; lia].
  - destruct s as [|c s']; [discriminate|]. simpl in Hn |- *.
    destruct (Ascii.eqb c dq); [intros [= <- <-]; lia|].
    destruct (Ascii.eqb c lf || Ascii.eqb c cr); [discriminate|].
    destruct (Ascii.eqb c bs).
    + destruct s' as [|e s'']; [discriminate|]. simpl in Hn.
      destruct (unescape e); [|discriminate].
      destruct (lex_string s'') as [[v' r']|] eqn:E; [|discriminate].
      intros [= <- <-]. apply IH in E; simpl; lia.
    + destruct (lex_string s') as [[v' r']|] eqn:E; [|discriminate].
      intros [= <- <-]. apply IH in E; simpl; lia.
Qed.

Lemma strip_prefix_length p s r :
  strip_prefix p s = Some r ->
  String.length s = (String.length p + String.length r)%nat.
Proof.
  revert s. induction p as [|a p IH]; intros s; simpl.
  - now intros [= ->].
  - destruct s as [|b s]; [discriminate|].
    destruct (Ascii.eqb a b); [|discriminate].
    intros H. apply IH in H. simpl. lia.
Qed.

(** With fuel for every character the parser of references does not
    depend on its fuel. *)
Lemma parse_refs_fuel_any f1 f2 s :
  (String.length s < f1)%nat -> (String.length s < f2)%nat ->
  parse_refs f1 s = parse_refs f2 s.
Proof.
  revert f2 s. induction f1 as [|f1 IH]; intros f2 s H1 H2; [lia|].
  destruct f2 as [|f2]; [lia|]. cbn [parse_refs].
  destruct (String.eqb s ";"); [reflexivity|].
  destruct (strip_prefix _ s) as [s1|] eqn:E1; [|reflexivity].
  apply strip_prefix_length in E1. cbn [mbind option_bind].
  destruct (lex_string s1) as [[name s2]|] eqn:E2; [|reflexivity].
  apply lex_string_shorter in E2. cbn [mbind option_bind].
  destruct (strip_prefix _ s2) as [s3|] eqn:E3; [|reflexivity].
  apply strip_prefix_length in E3. cbn [mbind option_bind].
  destruct (lex_string s3) as [[arg s4]|] eqn:E4; [|reflexivity].
  apply lex_string_shorter in E4. cbn [mbind option_bind].
  destruct (strip_prefix _ s4) as [s5|] eqn:E5; [|reflexivity].
  apply strip_prefix_length in E5. cbn [mbind option_bind].
  destruct (lex_string s5) as [[dflt s6]|] eqn:E6; [|reflexivity].
  apply lex_string_shorter in E6. cbn [mbind option_bind].
  destruct (strip_prefix _ s6) as [s7|] eqn:E7; [|reflexivity].
  apply strip_prefix_length in E7. cbn [mbind option_bind].
  destruct (lex_string s7) as [[text s8]|] eqn:E8; [|reflexivity].
  apply lex_string_shorter in E8. cbn [mbind option_bind].
  now rewrite (IH f2 s8) by lia.
Qed.

Section CompilerProperties.

Variable user_apply : nat -> list Arg -> Outcome Val.

(** What the body compiled from one reference to a valid name computes. *)
Lemma run_compiled_single name tokens rq rs :
  valid_name name = true ->
  run_compiled user_apply (compile_js (String ":" name)) tokens rq rs =
  (v <- call_named user_apply tokens name rq rs "undefined";;
   s <- to_string (or_val v (VStr "-"));;
   Ret (VStr s)).
Proof.
  intros Hv. unfold run_compiled. rewrite (parse_body_single _ Hv). simpl.
  destruct (call_named _ _ _ _ _ _) as [v| |]; simpl; try reflexivity.
  destruct (to_string _); simpl; rewrite ?append_nil_r; reflexivity.
Qed.

Lemma render_single name tokens rq rs :
  valid_name name = true ->
  render_template user_apply (VStr (String ":" name)) tokens rq rs =
  (v <- call_named user_apply tokens name rq rs "undefined";;
   s <- to_string (or_val v (VStr "-"));;
   Ret (VStr s)).
Proof.
  intros Hv. unfold render_template, compile, new_Function.
  rewrite (parse_body_single _ Hv). simpl. now apply run_compiled_single.
Qed.

(** What a template renders that has one reference to a valid name
    between literal texts. *)
Lemma render_embedded pre name post tokens rq rs :
  valid_name name = true ->
  plain pre = true -> has_token_ref pre = false ->
  plain post = true -> has_token_ref post = false ->
  continues post = false ->
  render_template user_apply (VStr (pre +:+ String ":" name +:+ post)) tokens rq rs =
  (v <- call_named user_apply tokens name rq rs "undefined";;
   s <- to_string (or_val v (VStr "-"));;
   Ret (VStr (pre +:+ s +:+ post))).
Proof.
  intros Hv Hppre Hpre Hppost Hpost Hcont.
  unfold render_template, compile, new_Function.
  rewrite (parse_body_embedded _ _ _ Hv Hppre Hpre Hppost Hpost Hcont).
  cbn [obind call_render]. unfold run_compiled.
  rewrite (parse_body_embedded _ _ _ Hv Hppre Hpre Hppost Hpost Hcont).
  cbn [body_first body_refs eval_refs ref_name ref_arg ref_default ref_text].
  destruct (call_named _ _ _ _ _ _) as [v| |]; cbn [obind]; try reflexivity.
  destruct (to_string _); reflexivity.
Qed.

(** C9: a reference to a token whose extractor returns the empty string,
    the number 0 or [false] is replaced by the dash, whatever literal text
    stands around it. *)
Theorem falsy_value_renders_dash pre name post tokens rq rs v :
  valid_name name = true ->
  plain pre = true -> has_token_ref pre = false ->
  plain post = true -> has_token_ref post = false ->
  continues post = false ->
  call_named user_apply tokens name rq rs "undefined" = Ret v ->
  v = VStr EmptyString \/ v = VNum 0 \/ v = VBool false ->
  render_template user_apply (VStr (pre +:+ String ":" name +:+ post)) tokens rq rs
  = Ret (VStr (pre +:+ "-" +:+ post)).
Proof.
  intros Hv Hppre Hpre Hppost Hpost Hcont Hcall Hfalsy.
  rewrite (render_embedded _ _ _ _ _ _ Hv Hppre Hpre Hppost Hpost Hcont), Hcall.
  destruct Hfalsy as [-> | [-> | ->]]; reflexivity.
Qed.

(** C2, amended: a lone reference [:T] to a valid name calls what
    [exports] holds under [T] and renders the result converted to a string
    when that result is truthy, and the dash when it is null, undefined or
    otherwise falsy; an exception of the extractor leaves the render
    function as it is, and so does the TypeError of calling what is not a
    function: [undefined] when nothing is registered under [T] and [T] is
    no property of the function object [exports], or a value such as a
    named template or [exports.name]. *)
Theorem single_token_render name tokens rq rs :
  valid_name name = true ->
  let r := render_template user_apply (VStr (String ":" name)) tokens rq rs in
  let c := call_named user_apply tokens name rq rs "undefined" in
  (forall v s, c = Ret v -> truthy v = true -> to_string v = Ret s ->
               r = Ret (VStr s))
  /\ (forall v, c = Ret v -> truthy v = false -> r = Ret (VStr "-"))
  /\ (forall e, c = Throw e -> r = Throw e)
  /\ (forall v, export_get tokens name = Ret v -> (forall f, v <> VFun f) ->
        r = Throw TypeError)
  /\ (tokens !! name = None -> export_slot name = SPlain -> r = Throw TypeError).
Proof.
  intros Hv r c. subst r c. rewrite (render_single _ _ _ _ Hv).
  assert (Hnf : forall v, export_get tokens name = Ret v ->
                  (forall f, v <> VFun f) ->
                  (v0 <- call_named user_apply tokens name rq rs "undefined";;
                   s <- to_string (or_val v0 (VStr "-"));; Ret (VStr s))
                  = Throw TypeError).
  { intros v Hget Hf. unfold call_named. rewrite Hget. cbn [obind].
    now rewrite (call_token_not_function user_apply v rq rs _ Hf). }
  repeat split.
  - intros v s -> Ht Hs. simpl. unfold or_val. now rewrite Ht, Hs.
  - intros v -> Ht. simpl. unfold or_val. now rewrite Ht.
  - now intros e ->.
  - exact Hnf.
  - intros Hnone Hslot. apply (Hnf VUndef); [|discriminate].
    rewrite (export_get_plain _ _ Hslot). unfold prop. now rewrite Hnone.
Qed.

(** C5, amended: a template with no token reference, no backslash and no
    line terminator renders as itself, double quotes included. *)
Theorem literal_passthrough t tokens rq rs :
  has_token_ref t = false -> plain t = true ->
  render_template user_apply (VStr t) tokens rq rs = Ret (VStr t).
Proof.
  intros Href Hp. unfold render_template, compile, new_Function.
  rewrite (parse_body_literal _ Href Hp). simpl. unfold run_compiled.
  now rewrite (parse_body_literal _ Href Hp).
Qed.

End CompilerProperties.

(** ** Lemmas on the lifecycle *)

Lemma subscribed_remove_first l :
  subscribed (remove_first LogRequest l) = Nat.pred (subscribed l).
Proof.
  unfold subscribed. induction l as [|y l IH]; simpl; [reflexivity|].
  destruct (decide (LogRequest = y)) as [<-|Hne].
  - destruct (Listener_eq_dec LogRequest LogRequest); [reflexivity | congruence].
  - simpl. destruct (Listener_eq_dec y LogRequest); [congruence | exact IH].
Qed.

Lemma subscribed_remove_listener l :
  subscribed (remove_listener LogRequest l) = Nat.pred (subscribed l).
Proof.
  unfold remove_listener, subscribed. rewrite count_occ_rev.
  fold (subscribed (remove_first LogRequest (rev l))).
  rewrite subscribed_remove_first. unfold subscribed. now rewrite count_occ_rev.
Qed.

Lemma subscribed_snoc l : subscribed (l ++ [LogRequest]) = S (subscribed l).
Proof.
  unfold subscribed. rewrite count_occ_app. simpl.
  destruct (Listener_eq_dec LogRequest LogRequest); [lia | congruence].
Qed.

Lemma subscribed_foreign ids : subscribed (map Foreign ids) = O.
Proof.
  unfold subscribed. induction ids as [|i ids IH]; simpl; [reflexivity|].
  destruct (Listener_eq_dec (Foreign i) LogRequest); [discriminate | exact IH].
Qed.

Lemma flush_empty w : w_buf w = [] -> flush w = w.
Proof. intros H. unfold flush. now rewrite H. Qed.

Lemma iter_flush_empty k w : w_buf w = [] -> Nat.iter k flush w = w.
Proof.
  intros H. induction k as [|k IH]; simpl; [reflexivity|].
  rewrite IH. now apply flush_empty.
Qed.

Lemma flush_buf w : w_buf (flush w) = [].
Proof. unfold flush. destruct (w_buf w) eqn:E; [exact E | reflexivity]. Qed.

(** Flushing more than once is flushing once. *)
Lemma iter_flush_S k w : Nat.iter (S k) flush w = flush w.
Proof.
  induction k as [|k IH]; [reflexivity|].
  change (Nat.iter (S (S k)) flush w) with (flush (Nat.iter (S k) flush w)).
  rewrite IH. apply flush_empty, flush_buf.
Qed.

Lemma flush_settled w : settled w -> settled (flush w).
Proof.
  unfold settled, flush. intros (Hf & Hc & Hr & Hl).
  destruct (w_buf w) as [|s b] eqn:E; [now rewrite E|].
  simpl in *. rewrite length_app. simpl. repeat split; auto; lia.
Qed.

Lemma flush_renders w : w_renders (flush w) = w_renders w.
Proof. unfold flush. now destruct (w_buf w). Qed.

Section LifecycleProperties.

Variable user_apply : nat -> list Arg -> Outcome Val.

(** [logRequest] step by step. *)
Lemma logRequest_unfold L w :
  logRequest user_apply L w =
  match call_skip user_apply (lg_skip L) (w_req w) (w_res w) with
  | Ret s =>
      if truthy s then (Ret tt, disarm w)
      else
        let w2 := set_renders (S (w_renders w)) (disarm w) in
        match call_render user_apply (lg_fmt L) (w_exports w) (w_req w) (w_res w) with
        | Ret line =>
            if nullish line then (Ret tt, w2)
            else
              match to_string line with
              | Ret str => stream_write (lg_buffered L) (str +:+ str1 lf) w2
              | Throw e => (Throw e, w2)
              | Beyond => (Beyond, w2)
              end
        | Throw e => (Throw e, w2)
        | Beyond => (Beyond, w2)
        end
  | Throw e => (Throw e, disarm w)
  | Beyond => (Beyond, disarm w)
  end.
Proof.
  unfold logRequest, bind, modify, gets, lift, ret, disarm. destruct w; simpl.
  destruct (call_skip _ _ _ _) as [s| |]; try reflexivity.
  destruct (truthy s); [reflexivity|].
  destruct (call_render _ _ _ _ _) as [line| |]; try reflexivity.
  destruct (nullish line); [reflexivity|].
  destruct (to_string line); reflexivity.
Qed.

Lemma disarm_subscribed w :
  (subscribed (w_finish w) <= 1)%nat -> (subscribed (w_close w) <= 1)%nat ->
  subscribed (w_finish (disarm w)) = O /\ subscribed (w_close (disarm w)) = O.
Proof.
  intros Hf Hc. destruct w; simpl in *.
  rewrite !subscribed_remove_listener. lia.
Qed.

(** Once [logRequest] has run on a cycle that had not logged, it is
    subscribed nowhere and has rendered and written at most once. *)
Lemma logRequest_settles L w : armed w -> settled (snd (logRequest user_apply L w)).
Proof.
  intros (Hr & Hb & Ho & Hf & Hc).
  destruct (disarm_subscribed w Hf Hc) as [Hf' Hc'].
  rewrite logRequest_unfold. unfold settled, stream_write, modify.
  destruct w; simpl in *. subst.
  destruct (call_skip _ _ _ _) as [s| |]; simpl; auto with lia.
  destruct (truthy s); simpl; auto with lia.
  destruct (call_render _ _ _ _ _) as [line| |]; simpl; auto with lia.
  destruct (nullish line); simpl; auto with lia.
  destruct (to_string line); simpl; auto with lia.
  destruct (lg_buffered L); simpl; auto with lia.
Qed.

Lemma call_all_unsubscribed L l w :
  subscribed l = O -> call_all user_apply L l w = (Ret tt, w).
Proof.
  unfold subscribed. induction l as [|x l IH]; simpl; intros H; [reflexivity|].
  destruct x as [|i]; simpl in H.
  - destruct (Listener_eq_dec LogRequest LogRequest); [discriminate | congruence].
  - unfold bind. simpl. destruct (Listener_eq_dec (Foreign i) LogRequest);
      [discriminate | now apply IH].
Qed.

(** A signal whose listeners hold [logRequest] once settles the cycle. *)
Lemma call_all_fires L l w :
  subscribed l = 1%nat -> armed w -> settled (snd (call_all user_apply L l w)).
Proof.
  unfold subscribed. induction l as [|x l IH]; simpl; intros Hl Hw; [discriminate|].
  destruct x as [|i]; simpl in Hl.
  - destruct (Listener_eq_dec LogRequest LogRequest); [|congruence].
    unfold bind. simpl.
    pose proof (logRequest_settles L w Hw) as Hs.
    destruct (logRequest user_apply L w) as [[[]| |] w']; simpl in *; auto.
    rewrite call_all_unsubscribed by (unfold subscribed; lia). exact Hs.
  - destruct (Listener_eq_dec (Foreign i) LogRequest); [discriminate|].
    unfold bind. simpl. now apply IH.
Qed.

Lemma waiting_armed w : waiting w -> armed w.
Proof. unfold waiting, armed. intros (? & ? & ? & -> & ->). auto. Qed.

Lemma advance_waiting dt w : waiting w -> waiting (advance dt w).
Proof.
  unfold waiting, advance. intros (Hr & Hb & Ho & Hf & Hc).
  destruct (w_timer w) as [[d due]|].
  - rewrite (iter_flush_empty _ _ Hb). destruct w; simpl in *. auto.
  - destruct w; simpl in *. auto.
Qed.

Lemma iter_flush_settled k w : settled w -> settled (Nat.iter k flush w).
Proof. intros H. induction k; simpl; [exact H | now apply flush_settled]. Qed.

Lemma advance_settled dt w : settled w -> settled (advance dt w).
Proof.
  unfold advance. intros H. destruct (w_timer w) as [[d due]|].
  - pose proof (iter_flush_settled (fires d due (w_now w + dt)) w H) as H'.
    destruct (Nat.iter _ flush w); exact H'.
  - destruct w; exact H.
Qed.

(** A settled cycle stays settled. *)
Lemma step_settled L ev w : settled w -> settled (snd (step user_apply L ev w)).
Proof.
  intros H. destruct ev as [| |name v|status|chunk|dt|name v]; simpl.
  - unfold bind, gets. now rewrite call_all_unsubscribed by apply H.
  - unfold bind, gets. now rewrite call_all_unsubscribed by apply H.
  - destruct w; exact H.
  - destruct w; exact H.
  - destruct w as [? ? ? ? []]; exact H.
  - now apply advance_settled.
  - define_case w; destruct w; exact H.
Qed.

(** A completion signal settles a waiting cycle; any other event leaves
    it waiting. *)
Lemma step_waiting L ev w :
  waiting w ->
  if is_signal ev then settled (snd (step user_apply L ev w))
  else waiting (snd (step user_apply L ev w)).
Proof.
  intros H. destruct ev as [| |name v|status|chunk|dt|name v]; simpl.
  - unfold bind, gets. apply call_all_fires; [apply H | now apply waiting_armed].
  - unfold bind, gets. apply call_all_fires; [apply H | now apply waiting_armed].
  - destruct w; exact H.
  - destruct w; exact H.
  - destruct w as [? ? ? ? []]; exact H.
  - now apply advance_waiting.
  - define_case w; destruct w; exact H.
Qed.

Lemma run_settled L evs w : settled w -> settled (run user_apply L evs w).
Proof.
  revert w. induction evs as [|ev evs IH]; intros w H; simpl; [exact H|].
  apply IH, step_settled, H.
Qed.

Lemma run_waiting L evs w :
  waiting w ->
  if existsb is_signal evs then settled (run user_apply L evs w)
  else waiting (run user_apply L evs w).
Proof.
  revert w. induction evs as [|ev evs IH]; intros w H; simpl; [exact H|].
  pose proof (step_waiting L ev w H) as Hs.
  destruct (is_signal ev); simpl.
  - now apply run_settled.
  - now apply IH.
Qed.

(** The middleware leaves the cycle settled when it logs at once, and
    waiting otherwise. *)
Lemma middleware_inv L e t tm rq rs fl cl :
  let w := snd (middleware user_apply L (fresh e t tm rq rs fl cl)) in
  if truthy (lg_immediate L) then settled w else waiting w.
Proof.
  unfold middleware, bind, modify. simpl.
  destruct (truthy (lg_immediate L)).
  - match goal with |- context [logRequest user_apply L ?w0] =>
      assert (Ha : armed w0) by
        (unfold armed; simpl; rewrite !subscribed_foreign; auto with lia);
      pose proof (logRequest_settles L w0 Ha) as Hs;
      destruct (logRequest user_apply L w0) as [[[]| |] w']
    end; simpl in *; destruct w'; exact Hs.
  - unfold waiting. simpl.
    rewrite !subscribed_snoc, !subscribed_foreign. auto.
Qed.

(** C1: whatever completion signals and other events follow the
    middleware, and in whatever order, the render function is called at
    most once and at most one line is handed to the stream, hence to the
    destination; and once 'finish' or 'close' has fired, [logRequest] is
    subscribed to neither. *)
Theorem at_most_one_render L e t tm rq rs fl cl evs :
  let w := run user_apply L evs
             (snd (middleware user_apply L (fresh e t tm rq rs fl cl))) in
  (w_renders w <= 1)%nat
  /\ (length (w_buf w) + length (w_out w) <= 1)%nat
  /\ (existsb is_signal evs = true ->
      subscribed (w_finish w) = O /\ subscribed (w_close w) = O).
Proof.
  intros w. pose proof (middleware_inv L e t tm rq rs fl cl) as H0.
  simpl in H0. destruct (truthy (lg_immediate L)).
  - apply (run_settled L evs) in H0. fold w in H0.
    destruct H0 as (Hf & Hc & Hr & Hl). repeat split; auto with lia.
  - apply (run_waiting L evs) in H0. fold w in H0.
    destruct (existsb is_signal evs).
    + destruct H0 as (Hf & Hc & Hr & Hl). repeat split; auto with lia.
    + destruct H0 as (Hr & Hb & Ho & _). rewrite Hr, Hb, Ho. simpl.
      repeat split; auto with lia; discriminate.
Qed.

End LifecycleProperties.

Section LoggingStep.

Variable user_apply : nat -> list Arg -> Outcome Val.

Lemma step_quiet L ev w : quiet w -> quiet (snd (step user_apply L ev w)).
Proof.
  intros H. destruct ev as [| |name v|status|chunk|dt|name v]; simpl.
  - unfold bind, gets. rewrite call_all_unsubscribed by apply H. exact H.
  - unfold bind, gets. rewrite call_all_unsubscribed by apply H. exact H.
  - destruct w; exact H.
  - destruct w; exact H.
  - destruct w as [? ? ? ? []]; exact H.
  - unfold advance. destruct H as (Hf & Hc & Hr & Hb & Ho).
    destruct (w_timer w) as [[d due]|].
    + rewrite (iter_flush_empty _ _ Hb). destruct w; repeat split; assumption.
    + destruct w; repeat split; assumption.
  - define_case w; destruct w; exact H.
Qed.

Lemma run_quiet L evs w : quiet w -> quiet (run user_apply L evs w).
Proof.
  revert w. induction evs as [|ev evs IH]; intros w H; simpl; [exact H|].
  apply IH, step_quiet, H.
Qed.

(** C6: when the skip predicate returns a truthy value at the time
    [logRequest] runs on a cycle that has not logged, [logRequest] returns
    at once, and neither then nor at any later event of the cycle is the
    render function called or anything handed to the stream or written to
    the destination. *)
Theorem skip_means_no_line L w v evs :
  armed w ->
  call_skip user_apply (lg_skip L) (w_req w) (w_res w) = Ret v ->
  truthy v = true ->
  logRequest user_apply L w = (Ret tt, disarm w)
  /\ let w' := run user_apply L evs (disarm w) in
     w_renders w' = O /\ w_buf w' = [] /\ w_out w' = [].
Proof.
  intros (Hr & Hb & Ho & Hf & Hc) Hskip Ht. split.
  - now rewrite logRequest_unfold, Hskip, Ht.
  - assert (Hq : quiet (disarm w)).
    { destruct (disarm_subscribed w Hf Hc) as [Hf' Hc'].
      destruct w; repeat split; assumption. }
    apply (run_quiet L evs) in Hq. destruct Hq as (_ & _ & H1 & H2 & H3). auto.
Qed.

(** C7: on the logging path (the skip predicate returned a falsy value)
    a null or undefined result of the render function leaves the stream
    and the destination untouched, and a string result [s] is handed to
    the stream once, as [s] followed by one line feed. *)
Theorem line_written_with_newline L w sv line :
  call_skip user_apply (lg_skip L) (w_req w) (w_res w) = Ret sv ->
  truthy sv = false ->
  call_render user_apply (lg_fmt L) (w_exports w) (w_req w) (w_res w) = Ret line ->
  let w' := snd (logRequest user_apply L w) in
  (nullish line = true -> w_buf w' = w_buf w /\ w_out w' = w_out w)
  /\ (forall s, line = VStr s ->
        if lg_buffered L
        then w_buf w' = (w_buf w ++ [s +:+ str1 lf])%list /\ w_out w' = w_out w
        else w_out w' = (w_out w ++ [s +:+ str1 lf])%list /\ w_buf w' = w_buf w).
Proof.
  intros Hskip Hf Hrender w'. subst w'.
  rewrite logRequest_unfold, Hskip, Hf, Hrender. split.
  - intros ->. destruct w; split; reflexivity.
  - intros s ->. simpl. unfold stream_write, modify.
    destruct (lg_buffered L); destruct w; split; reflexivity.
Qed.


End LoggingStep.

(** ** The batching writer *)

Lemma advance_before d due w dt :
  w_timer w = Some (d, due) -> w_now w + dt < due ->
  advance dt w = set_now (w_now w + dt) w.
Proof.
  intros Ht Hlt. unfold advance, fires. rewrite Ht.
  destruct (Z.ltb_spec (w_now w + dt) due); [|lia].
  simpl. rewrite Z.add_0_r. destruct w; simpl in *. now subst.
Qed.

(** Lines appended before the timer is due only grow the buffer. *)
Lemma append_lines_before d due items w :
  w_timer w = Some (d, due) ->
  Forall (fun p => 0 <= fst p) items ->
  w_now w + elapsed items < due ->
  let w1 := append_lines true items w in
  w_out w1 = w_out w
  /\ w_buf w1 = (w_buf w ++ map snd items)%list
  /\ w_timer w1 = Some (d, due)
  /\ w_now w1 = w_now w + elapsed items.
Proof.
  revert w. induction items as [|[dt s] items IH]; intros w Ht Hpos Hlt; simpl.
  - rewrite app_nil_r, Z.add_0_r. auto.
  - inversion Hpos as [|? ? Hdt Hrest]; subst. simpl in Hdt.
    unfold elapsed in Hlt. simpl in Hlt. fold (elapsed items) in Hlt.
    assert (Hrest0 : 0 <= elapsed items).
    { clear -Hrest. induction Hrest as [|p l Hp _ IHl]; unfold elapsed; simpl; [lia|].
      fold (elapsed l). lia. }
    rewrite (advance_before d due w dt Ht) by lia.
    unfold stream_write, modify. simpl.
    match goal with |- context [append_lines true items ?w0] =>
      destruct (IH w0) as (H1 & H2 & H3 & H4)
    end.
    + destruct w; exact Ht.
    + exact Hrest.
    + destruct w; simpl in *. lia.
    + unfold append_lines in *. rewrite H1, H2, H3, H4.
      unfold elapsed. simpl. fold (elapsed items).
      destruct w; simpl. rewrite <- app_assoc. simpl. repeat split; auto; lia.
Qed.

(** Once the timer is due the buffered lines go out as one write. *)
Lemma advance_due d due w dt s b :
  w_timer w = Some (d, due) -> 1 <= d -> due <= w_now w + dt ->
  w_buf w = s :: b ->
  w_out (advance dt w) = (w_out w ++ [join (s :: b)])%list
  /\ w_buf (advance dt w) = [].
Proof.
  intros Ht Hd Hdue Hb. unfold advance, fires. rewrite Ht.
  destruct (Z.ltb_spec (w_now w + dt) due); [lia|].
  assert (Hk : 0 <= (w_now w + dt - due) / d) by (apply Z.div_pos; lia).
  destruct (Z.to_nat ((w_now w + dt - due) / d + 1)) as [|k] eqn:E; [lia|].
  rewrite iter_flush_S. unfold flush. rewrite Hb.
  destruct w; simpl in *. subst. auto.
Qed.

(** [logger] in one piece: the format is settled first, the writer set up
    after. *)
Lemma logger_unfold (user_key : nat -> Outcome string) a w :
  logger user_key a w =
  match settle_format user_key (w_exports w) (opt_format (normalise a)) with
  | Ret fmt =>
      (Ret (mkLogger (opt_immediate (normalise a))
              (or_val (opt_skip (normalise a)) (VFun FNeverSkip))
              fmt (truthy (opt_buffer (normalise a)))),
       writer_set_up (opt_buffer (normalise a)) w)
  | Throw x => (Throw x, w)
  | Beyond => (Beyond, w)
  end.
Proof.
  unfold logger, settle_format, writer_set_up, bind, gets, lift, modify, ret,
    setInterval.
  destruct (resolve_format user_key (w_exports w) (opt_format (normalise a)))
    as [fmt| |]; cbn [obind]; try reflexivity.
  destruct (match fmt with VFun _ => _ | _ => _ end) as [f| |]; try reflexivity.
  destruct (truthy (opt_buffer (normalise a))); destruct w; reflexivity.
Qed.

(** What [logger] sets up when the buffer option is truthy. *)
Lemma logger_buffered (user_key : nat -> Outcome string) o w0 L w :
  truthy (opt_buffer o) = true ->
  logger user_key (ArgObject o) w0 = (Ret L, w) ->
  lg_buffered L = true
  /\ w_timer w = Some (flush_interval (opt_buffer o),
                       w_now w0 + flush_interval (opt_buffer o))
  /\ w_buf w = [] /\ w_out w = w_out w0 /\ w_now w = w_now w0.
Proof.
  intros Hb. rewrite logger_unfold. cbn [normalise]. unfold writer_set_up.
  rewrite Hb.
  destruct (settle_format user_key (w_exports w0) (opt_format o)) as [f| |];
    try discriminate.
  intros [= <- <-]. destruct w0; simpl. auto.
Qed.

Lemma timer_delay_pos d : 1 <= timer_delay d.
Proof. unfold timer_delay. destruct (_ || _) eqn:E; [lia|]. apply orb_false_elim in E. lia. Qed.

(** C8, amended: with buffering configured, one or more lines appended
    before the flush interval has elapsed reach the destination only once
    it has: as a single write, their concatenation in the order they were
    appended, after which the buffer is empty. *)
Theorem batched_lines_flushed_once (user_key : nat -> Outcome string)
    o w0 L w items dt :
  truthy (opt_buffer o) = true ->
  logger user_key (ArgObject o) w0 = (Ret L, w) ->
  items <> [] ->
  Forall (fun p => 0 <= fst p) items ->
  elapsed items < flush_interval (opt_buffer o) ->
  flush_interval (opt_buffer o) <= elapsed items + dt ->
  let w1 := append_lines (lg_buffered L) items w in
  let w2 := advance dt w1 in
  w_out w1 = w_out w0
  /\ w_out w2 = (w_out w0 ++ [join (map snd items)])%list
  /\ w_buf w2 = [].
Proof.
  intros Hb Hlog Hne Hpos Hlt Hge.
  destruct (logger_buffered user_key o w0 L w Hb Hlog)
    as (-> & Ht & Hbuf & Hout & Hnow).
  destruct (append_lines_before _ _ items w Ht Hpos) as (H1 & H2 & H3 & H4);
    [lia|].
  intros w1 w2. subst w1 w2. rewrite Hbuf in H2. simpl in H2.
  split; [congruence|].
  destruct items as [|[dt0 s0] items]; [congruence|]. simpl in H2.
  destruct (advance_due _ _ _ dt _ _ H3 (timer_delay_pos _) ltac:(lia) H2)
    as [Ho Hb'].
  rewrite Ho, Hb', H1, Hout. auto.
Qed.

(** ** The shared namespace of tokens and formats *)


(** ** The inline format of the specification's example *)

Lemma call_all_foreign (user_apply : nat -> list Arg -> Outcome Val) L ids l w :
  call_all user_apply L (map Foreign ids ++ l) w = call_all user_apply L l w.
Proof. induction ids as [|i ids IH]; simpl; [reflexivity | exact IH]. Qed.

Lemma example_body :
  parse_body (compile_js example_format) =
  Some (mkBody (apos_to_dq "{'m':'")
          [mkRef "method" "undefined" "-" (apos_to_dq "','s':'");
           mkRef "status" "undefined" "-" (apos_to_dq "'}")]).
Proof. vm_compute. reflexivity. Qed.

Lemma example_render (user_apply : nat -> list Arg -> Outcome Val)
    (e : Registry) (rq : Request) (rs : Response) :
  prop e "method" = VFun (FToken TMethod) ->
  prop e "status" = VFun (FToken TStatus) ->
  method rq = VStr "GET" ->
  headersSent rs = VBool true ->
  statusCode rs = VNum 404 ->
  run_compiled user_apply (compile_js example_format) e rq rs
  = Ret (VStr (apos_to_dq "{'m':'GET','s':'404'}")).
Proof.
  intros Hm Hs Hget Hsent Hcode. unfold run_compiled. rewrite example_body.
  cbn [body_first body_refs eval_refs ref_name ref_arg ref_default ref_text].
  unfold call_named. rewrite !export_get_plain by reflexivity. cbn [obind].
  rewrite Hm, Hs. cbn [call_token builtin_token obind].
  rewrite Hget, Hsent, Hcode. reflexivity.
Qed.

Lemma example_logger (user_key : nat -> Outcome string) (w0 : World) :
  w_exports w0 = initial_exports ->
  logger user_key (ArgValue (VStr example_format)) w0
  = (Ret example_logger_value, w0).
Proof.
  intros He. unfold logger, bind, gets, lift, ret. simpl. rewrite He.
  vm_compute. reflexivity.
Qed.

(** C4, amended: with the inline format of the example, a GET request
    answered with status 404 puts one line on the destination; the status
    stands between the double quotes the template has around its
    reference, and a line feed ends the line. *)
Theorem example_line (user_apply : nat -> list Arg -> Outcome Val)
    (user_key : nat -> Outcome string)
    (t : Z) (rq : Request) (rs : Response) (fl cl : list nat) :
  method rq = VStr "GET" ->
  exists w,
    handle user_apply user_key (ArgValue (VStr example_format))
      [WriteHead (VNum 404); Finish]
      (fresh initial_exports t None rq rs fl cl) = Ret w
    /\ w_out w = [apos_to_dq "{'m':'GET','s':'404'}" +:+ str1 lf].
Proof.
  intros Hm. unfold handle. rewrite example_logger by reflexivity.
  eexists. split; [reflexivity|].
  unfold middleware, fresh, bind, modify.
  cbn -[initial_exports compile_js example_format apos_to_dq String.append].
  unfold bind, gets.
  cbn -[initial_exports compile_js example_format apos_to_dq String.append].
  rewrite call_all_foreign. cbn [call_all call_listener]. unfold bind.
  rewrite logRequest_unfold.
  cbn -[initial_exports compile_js example_format apos_to_dq String.append
        run_compiled].
  rewrite (example_render user_apply); [reflexivity | | | exact Hm | | ];
    vm_compute; reflexivity.
Qed.

(** ** Instances *)

Lemma skip_means_no_line_witness :
  let w := snd (middleware sample_user skipping_logger sample_world) in
  logRequest sample_user skipping_logger w = (Ret tt, disarm w)
  /\ let w' := run sample_user skipping_logger [Finish; Close] (disarm w) in
     w_renders w' = O /\ w_buf w' = [] /\ w_out w' = [].
Proof.
  apply (skip_means_no_line sample_user skipping_logger _ (VBool true)
           [Finish; Close]).
  - unfold armed. vm_compute. repeat split; lia.
  - reflexivity.
  - reflexivity.
Defined.

Lemma line_written_with_newline_witness :
  w_out (snd (logRequest sample_user example_logger_value answered_world))
  = [apos_to_dq "{'m':'GET','s':'404'}" +:+ str1 lf].
Proof.
  refine (proj1 (proj2 (line_written_with_newline sample_user
            example_logger_value answered_world (VBool false)
            (VStr (apos_to_dq "{'m':'GET','s':'404'}")) _ _ _) _ eq_refl));
    vm_compute; reflexivity.
Defined.

Lemma falsy_value_renders_dash_witness :
  render_template sample_user (VStr (apos_to_dq "{'n':':zero'}"))
    (registered "zero" (VFun (FUser 2)) initial_exports)
    sample_request sample_response
  = Ret (VStr (apos_to_dq "{'n':'-'}")).
Proof.
  apply (falsy_value_renders_dash sample_user (apos_to_dq "{'n':'") "zero"
           (apos_to_dq "'}") _ _ _ (VNum 0)); try (vm_compute; reflexivity).
  right. left. reflexivity.
Defined.

Lemma single_token_render_witness :
  render_template sample_user (VStr ":method") initial_exports
    sample_request sample_response
  = Ret (VStr "GET").
Proof.
  refine (proj1 (single_token_render sample_user "method" initial_exports
            sample_request sample_response _) (VStr "GET") "GET" _ _ _);
    vm_compute; reflexivity.
Defined.

Lemma example_line_witness :
  exists w,
    handle sample_user sample_key (ArgValue (VStr example_format))
      [WriteHead (VNum 404); Finish]
      (fresh initial_exports 0 None sample_request sample_response [7%nat] [])
    = Ret w
    /\ w_out w = [apos_to_dq "{'m':'GET','s':'404'}" +:+ str1 lf].
Proof.
  apply (example_line sample_user sample_key 0 sample_request sample_response [7%nat] []).
  reflexivity.
Defined.

Lemma literal_passthrough_witness :
  render_template sample_user (VStr (apos_to_dq "{'a': 1}")) initial_exports
    sample_request sample_response
  = Ret (VStr (apos_to_dq "{'a': 1}")).
Proof.
  apply (literal_passthrough sample_user); vm_compute; reflexivity.
Defined.

Lemma batched_lines_flushed_once_witness :
  let items := [(100, "a"); (200, "b")] in
  let w1 := append_lines true items buffering_world in
  let w2 := advance 700 w1 in
  w_out w1 = [] /\ w_out w2 = ["ab"] /\ w_buf w2 = [].
Proof.
  apply (batched_lines_flushed_once sample_key buffering_options sample_world
           buffering_logger buffering_world [(100, "a"); (200, "b")] 700).
  - reflexivity.
  - vm_compute. reflexivity.
  - discriminate.
  - repeat constructor; simpl; lia.
  - vm_compute. reflexivity.
  - vm_compute. discriminate.
Defined.

(** ** Where the claims of the specification fail *)

(** C2: a reference to a name under which [exports] holds nothing does
    not render as the dash, it raises a TypeError; an extractor's exception is not caught;
    and the number 0, which is not null, renders as the dash. *)
Lemma single_token_counterexample :
  (render_template sample_user (VStr ":zz") initial_exports
     sample_request sample_response = Throw TypeError
   /\ render_template sample_user (VStr ":zz") initial_exports
        sample_request sample_response <> Ret (VStr "-"))
  /\ render_template sample_user (VStr ":boom")
       (registered "boom" (VFun (FUser 1)) initial_exports)
       sample_request sample_response = Throw (Thrown (VStr "boom"))
  /\ (call_token sample_user (VFun (FUser 2)) sample_request sample_response
        "undefined" = Ret (VNum 0)
      /\ render_template sample_user (VStr ":zero")
           (registered "zero" (VFun (FUser 2)) initial_exports)
           sample_request sample_response = Ret (VStr "-")).
Proof.
  assert (H : render_template sample_user (VStr ":zz") initial_exports
                sample_request sample_response = Throw TypeError)
    by (vm_compute; reflexivity).
  repeat split; try (vm_compute; reflexivity).
  rewrite H. discriminate.
Qed.


(** C4: the line of the example has the status between double quotes; it
    is not the line the specification gives. *)
Lemma example_line_counterexample :
  exists w,
    handle sample_user sample_key (ArgValue (VStr example_format))
      [WriteHead (VNum 404); Finish] sample_world = Ret w
    /\ w_out w = [apos_to_dq "{'m':'GET','s':'404'}" +:+ str1 lf]
    /\ w_out w <> [apos_to_dq "{'m':'GET','s':404}" +:+ str1 lf].
Proof.
  eexists. split; [vm_compute; reflexivity|]. split; [reflexivity|].
  vm_compute. discriminate.
Qed.

(** C5: the template made of a backslash and the letter n has no token
    reference, and renders as a line feed. *)
Lemma literal_passthrough_counterexample :
  has_token_ref (String bs "n") = false
  /\ render_template sample_user (VStr (String bs "n")) initial_exports
       sample_request sample_response = Ret (VStr (str1 lf))
  /\ VStr (str1 lf) <> VStr (String bs "n").
Proof. repeat split; try (vm_compute; reflexivity). discriminate. Qed.

(** C8: with buffering configured and no line appended, the destination
    gets no write when the interval has elapsed. *)
Lemma batched_counterexample :
  logger sample_key (ArgObject buffering_options) sample_world
  = (Ret buffering_logger, buffering_world)
  /\ w_out (advance 1000 (append_lines true [] buffering_world)) = []
  /\ w_buf (advance 1000 (append_lines true [] buffering_world)) = [].
Proof. repeat split; vm_compute; reflexivity. Qed.


(** * Further properties of the code *)

(** ** The compiler on every template without backslash *)

Lemma parse_body_tail js :
  parse_body js =
  match strip_prefix ("  return " +:+ str1 dq) js with
  | Some s1 =>
      match parse_tail s1 with
      | Some (first, refs) => Some (mkBody first refs)
      | None => None
      end
  | None => None
  end.
Proof.
  unfold parse_body, parse_tail.
  destruct (strip_prefix _ js) as [s1|]; [|reflexivity]. cbn [mbind option_bind].
  destruct (lex_string s1) as [[first s2]|]; [|reflexivity]. cbn [mbind option_bind].
  destruct (parse_refs _ s2); reflexivity.
Qed.

Lemma parse_tail_char c x :
  Ascii.eqb c dq = false -> Ascii.eqb c bs = false ->
  Ascii.eqb c lf = false -> Ascii.eqb c cr = false ->
  parse_tail (String c x) = cons_first c <$> parse_tail x.
Proof.
  intros Hq Hb Hl Hc. unfold parse_tail. cbn [lex_string].
  rewrite Hq, Hb, Hl, Hc. cbn [orb].
  destruct (lex_string x) as [[v s2]|]; [|reflexivity].
  cbn [mbind option_bind].
  destruct (parse_refs (S (String.length s2)) s2); reflexivity.
Qed.

Lemma parse_tail_quote x :
  parse_tail (String bs (String dq x)) = cons_first dq <$> parse_tail x.
Proof.
  unfold parse_tail. cbn [lex_string].
  change (Ascii.eqb bs dq) with false. change (Ascii.eqb bs lf) with false.
  change (Ascii.eqb bs cr) with false. change (Ascii.eqb bs bs) with true.
  change (unescape dq) with (Some dq). cbn [orb].
  destruct (lex_string x) as [[v s2]|]; [|reflexivity].
  cbn [mbind option_bind].
  destruct (parse_refs (S (String.length s2)) s2); reflexivity.
Qed.

(** One reference read by the parser, with the argument as it stands in
    the body. *)
Lemma parse_refs_ref f name arg_text arg x l s8 :
  all_name_chars name = true ->
  (forall y, lex_string (arg_text +:+ String dq y) = Some (arg, y)) ->
  lex_string x = Some (l, s8) ->
  parse_refs (S f)
    (str1 lf +:+ "    + (tokens[" +:+ str1 dq +:+ name +:+ str1 dq
     +:+ "](req, res, " +:+ str1 dq +:+ arg_text +:+ str1 dq
     +:+ ") || " +:+ str1 dq +:+ "-" +:+ str1 dq +:+ ") + " +:+ str1 dq +:+ x)
  = (refs ← parse_refs f s8; Some (mkRef name arg "-" l :: refs)).
Proof.
  intros Hname Harg Hx. simpl.
  rewrite (lex_string_name _ _ Hname). simpl.
  rewrite Harg. simpl. rewrite Hx. reflexivity.
Qed.

Lemma parse_tail_placeholder name arg_text arg x l refs :
  all_name_chars name = true ->
  (forall y, lex_string (arg_text +:+ String dq y) = Some (arg, y)) ->
  parse_tail x = Some (l, refs) ->
  parse_tail
    ((str1 dq +:+ str1 lf +:+ "    + (tokens[" +:+ str1 dq +:+ name +:+ str1 dq
      +:+ "](req, res, " +:+ str1 dq +:+ arg_text +:+ str1 dq
      +:+ ") || " +:+ str1 dq +:+ "-" +:+ str1 dq +:+ ") + " +:+ str1 dq) +:+ x)
  = Some (EmptyString, mkRef name arg "-" l :: refs).
Proof.
  intros Hname Harg Hx. unfold parse_tail in Hx.
  destruct (lex_string x) as [[l' s8]|] eqn:Elex; [|discriminate].
  cbn [mbind option_bind] in Hx.
  destruct (parse_refs (S (String.length s8)) s8) as [refs'|] eqn:Erefs;
    [|discriminate].
  injection Hx as <- <-.
  rewrite !append_assoc. unfold parse_tail.
  match goal with |- context [lex_string (str1 dq +:+ ?r)] =>
    change (lex_string (str1 dq +:+ r)) with (Some (EmptyString, r));
    set (rest := r)
  end.
  cbn [mbind option_bind].
  unfold rest at 2.
  rewrite (parse_refs_ref _ name arg_text arg x l' s8 Hname Harg Elex).
  rewrite (parse_refs_fuel_any _ (S (String.length s8)) s8), Erefs;
    [reflexivity | | lia].
  apply lex_string_shorter in Elex. unfold rest.
  rewrite !length_append. lia.
Qed.

(** The global replace, one match at a time. *)
Lemma replace_tokens_other c s :
  Ascii.eqb c ":" = false ->
  replace_tokens (String c s) = String c (replace_tokens s).
Proof. intros H. unfold replace_tokens. cbn [String.length replace_tokens_fuel]. now rewrite H. Qed.

Lemma replace_tokens_colon_short s :
  (2 <=? String.length (fst (span_name s)))%nat = false ->
  replace_tokens (String ":" s) = String ":" (replace_tokens s).
Proof.
  intros H. unfold replace_tokens.
  cbn [String.length replace_tokens_fuel Ascii.eqb Bool.eqb].
  destruct (span_name s) as [name rest]. cbn [fst] in H. now rewrite H.
Qed.

Lemma replace_tokens_match s name rest :
  span_name s = (name, rest) ->
  (2 <=? String.length name)%nat = true ->
  replace_tokens (String ":" s) =
  match match_arg rest with
  | Some (arg, rest') => placeholder name (Some arg) +:+ replace_tokens rest'
  | None => placeholder name None +:+ replace_tokens rest
  end.
Proof.
  intros Hs Hn. unfold replace_tokens.
  cbn [String.length replace_tokens_fuel Ascii.eqb Bool.eqb].
  pose proof (span_name_length s) as Hl. rewrite Hs in Hl |- *. cbn [fst snd] in Hl.
  rewrite Hn. destruct (match_arg rest) as [[arg rest']|] eqn:Ea.
  - apply match_arg_shorter in Ea.
    now rewrite (replace_tokens_fuel_enough _ rest') by lia.
  - now rewrite (replace_tokens_fuel_enough _ rest) by lia.
Qed.

(** Escaping the quotes moves no token reference. *)
Lemma span_name_escape s :
  span_name (escape_quotes s) = (fst (span_name s), escape_quotes (snd (span_name s))).
Proof.
  induction s as [|c s IH]; [reflexivity|]. simpl.
  destruct (Ascii.eqb_spec c dq) as [->|Hc]; [reflexivity|].
  simpl. destruct (is_name_char c); [|simpl; apply Ascii.eqb_neq in Hc; now rewrite Hc].
  rewrite IH. now destruct (span_name s).
Qed.

Lemma span_arg_escape s :
  span_arg (escape_quotes s) =
  (escape_quotes (fst (span_arg s)), escape_quotes (snd (span_arg s))).
Proof.
  induction s as [|c s IH]; [reflexivity|]. simpl.
  destruct (Ascii.eqb_spec c dq) as [->|Hc].
  - simpl. rewrite IH. now destruct (span_arg s).
  - simpl. destruct (Ascii.eqb_spec c "]") as [->|Hb]; [reflexivity|].
    rewrite IH. destruct (span_arg s). simpl.
    apply Ascii.eqb_neq in Hc. now rewrite Hc.
Qed.

Lemma escape_quotes_bracket rest :
  escape_quotes (String "]" rest) = String "]" (escape_quotes rest).
Proof. reflexivity. Qed.

(** [match_arg] with its character tests written as comparisons. *)
Lemma match_arg_eq s :
  match_arg s =
  match s with
  | EmptyString => None
  | String c r =>
      if Ascii.eqb c "[" then
        match span_arg r with
        | (String x a, String y rest) =>
            if Ascii.eqb y "]" then Some (String x a, rest) else None
        | _ => None
        end
      else None
  end.
Proof.
  destruct s as [|c r]; [reflexivity|]. unfold match_arg.
  destruct c as [[] [] [] [] [] [] [] []]; try reflexivity.
  destruct (span_arg r) as [[|x a] [|y rest]]; try reflexivity.
  destruct y as [[] [] [] [] [] [] [] []]; reflexivity.
Qed.

Lemma match_arg_escape s :
  match_arg (escape_quotes s) =
  match match_arg s with
  | Some (a, r) => Some (escape_quotes a, escape_quotes r)
  | None => None
  end.
Proof.
  rewrite !match_arg_eq. destruct s as [|c s]; [reflexivity|].
  destruct (Ascii.eqb_spec c "[") as [->|Hc].
  - change (escape_quotes (String "[" s)) with (String "[" (escape_quotes s)).
    cbn [Ascii.eqb Bool.eqb]. rewrite span_arg_escape.
    destruct (span_arg s) as [[|x a] [|y rest]]; cbn [fst snd]; try reflexivity.
    + simpl. now destruct (Ascii.eqb x dq).
    + destruct (Ascii.eqb_spec y "]") as [->|Hy].
      * rewrite escape_quotes_bracket. simpl. now destruct (Ascii.eqb x dq).
      * apply Ascii.eqb_neq in Hy. simpl.
        destruct (Ascii.eqb x dq); destruct (Ascii.eqb_spec y dq) as [->|Hq];
          try reflexivity; now rewrite Hy.
  - apply Ascii.eqb_neq in Hc. simpl.
    destruct (Ascii.eqb_spec c dq) as [->|Hq]; [reflexivity|]. now rewrite Hc.
Qed.

Lemma span_name_names s : all_name_chars (fst (span_name s)) = true.
Proof.
  induction s as [|c s IH]; [reflexivity|]. simpl.
  destruct (is_name_char c) eqn:E; [|reflexivity].
  destruct (span_name s). simpl in *. now rewrite E.
Qed.

Lemma plain_span_name s : plain s = true -> plain (snd (span_name s)) = true.
Proof.
  induction s as [|c s IH]; [reflexivity|]. intros H. simpl.
  destruct (is_name_char c); [|exact H].
  simpl in H. apply andb_prop in H as [_ H].
  destruct (span_name s). simpl in *. auto.
Qed.

Lemma plain_span_arg s :
  plain s = true ->
  plain (fst (span_arg s)) = true /\ plain (snd (span_arg s)) = true.
Proof.
  induction s as [|c s IH]; [now split|]. intros H. simpl.
  destruct (Ascii.eqb c "]"); [now split|].
  simpl in H. apply andb_prop in H as [Hc H].
  destruct (IH H) as [H1 H2]. destruct (span_arg s). simpl in *.
  now rewrite Hc, H1.
Qed.

Lemma plain_match_arg s a r :
  plain s = true -> match_arg s = Some (a, r) ->
  plain a = true /\ plain r = true.
Proof.
  destruct s as [|c s]; [discriminate|]. intros Hp. unfold match_arg.
  destruct (Ascii.eqb_spec c "[") as [->|Hc].
  - simpl in Hp. destruct (plain_span_arg s Hp) as [H1 H2].
    destruct (span_arg s) as [[|x n] [|y rest]]; try discriminate.
    destruct (Ascii.eqb_spec y "]") as [->|Hy].
    + intros [= <- <-]. simpl in H2. now split.
    + destruct y as [[] [] [] [] [] [] [] []]; try discriminate. congruence.
  - destruct c as [[] [] [] [] [] [] [] []]; try discriminate. congruence.
Qed.

Lemma cons_first_chunks c (p : string * list Ref) :
  (let '(l, refs) := p in (String c l, refs)) = cons_first c p.
Proof. now destruct p. Qed.

(** The body [compile] emits for a template without backslash and line
    terminator is read back by the parser as the chunks and references of
    the template. *)
Lemma chunks_parse f t :
  (String.length t <= f)%nat -> plain t = true ->
  parse_tail (replace_tokens (escape_quotes t) +:+ String dq ";")
  = Some (chunks_fuel f t).
Proof.
  revert t. induction f as [|f IH]; intros t Hlen Hp.
  - destruct t; [reflexivity | simpl in Hlen; lia].
  - destruct t as [|c r]; [reflexivity|].
    simpl in Hlen. simpl in Hp.
    apply andb_prop in Hp as [Hp Hr]. apply andb_prop in Hp as [Hp Hcr].
    apply andb_prop in Hp as [Hbs Hlf].
    apply negb_true_iff in Hbs, Hlf, Hcr.
    cbn [chunks_fuel]. rewrite !cons_first_chunks.
    destruct (Ascii.eqb_spec c dq) as [->|Hq].
    + change (escape_quotes (String dq r)) with (String bs (String dq (escape_quotes r))).
      rewrite !replace_tokens_other by reflexivity.
      change (Ascii.eqb dq ":") with false. cbn iota.
      change (String bs (String dq (replace_tokens (escape_quotes r))) +:+ String dq ";")
        with (String bs (String dq (replace_tokens (escape_quotes r) +:+ String dq ";"))).
      rewrite parse_tail_quote, IH by (auto; lia). reflexivity.
    + apply Ascii.eqb_neq in Hq.
      assert (He : escape_quotes (String c r) = String c (escape_quotes r))
        by (simpl; now rewrite Hq).
      rewrite He. destruct (Ascii.eqb_spec c ":") as [->|Hcolon].
      * pose proof (span_name_escape r) as Hse.
        pose proof (span_name_length r) as Hsl.
        pose proof (span_name_names r) as Hsn.
        pose proof (plain_span_name r Hr) as Hsp.
        destruct (span_name r) as [name rest]. cbn [fst snd] in *.
        destruct (2 <=? String.length name)%nat eqn:Hn.
        -- rewrite (replace_tokens_match _ _ _ Hse Hn), match_arg_escape.
           destruct (match_arg rest) as [[a rest']|] eqn:Ea.
           ++ destruct (plain_match_arg _ _ _ Hsp Ea) as [Hpa Hpr].
              apply match_arg_shorter in Ea.
              specialize (IH rest' ltac:(lia) Hpr).
              destruct (chunks_fuel f rest') as [l refs].
              rewrite append_assoc. unfold placeholder. cbn [default].
              apply parse_tail_placeholder; auto.
              intros y. now apply lex_string_escape.
           ++ specialize (IH rest ltac:(lia) Hsp).
              destruct (chunks_fuel f rest) as [l refs].
              rewrite append_assoc. unfold placeholder. cbn [default].
              apply parse_tail_placeholder; auto.
           -- rewrite replace_tokens_colon_short by (now rewrite Hse).
              change (String ":" (replace_tokens (escape_quotes r)) +:+ String dq ";")
                with (String ":" (replace_tokens (escape_quotes r) +:+ String dq ";")).
              rewrite parse_tail_char, IH by (auto; lia). reflexivity.
      * apply Ascii.eqb_neq in Hcolon.
        rewrite replace_tokens_other by exact Hcolon.
        change (String c (replace_tokens (escape_quotes r)) +:+ String dq ";")
          with (String c (replace_tokens (escape_quotes r) +:+ String dq ";")).
        rewrite parse_tail_char, IH by (auto; lia). reflexivity.
Qed.

Lemma parse_body_chunks t :
  plain t = true ->
  parse_body (compile_js t) = Some (mkBody (fst (chunks t)) (snd (chunks t))).
Proof.
  intros Hp. rewrite parse_body_tail. unfold compile_js.
  change (strip_prefix ("  return " +:+ str1 dq)
            ("  return " +:+ str1 dq +:+ replace_tokens (escape_quotes t)
             +:+ str1 dq +:+ ";"))
    with (Some (replace_tokens (escape_quotes t) +:+ String dq ";")).
  unfold chunks. rewrite (chunks_parse _ t (le_n _) Hp).
  now destruct (chunks_fuel _ t).
Qed.

(** ** The chunks of a template written from its pieces *)

Lemma chunks_fuel_any f1 f2 t :
  (String.length t <= f1)%nat -> (String.length t <= f2)%nat ->
  chunks_fuel f1 t = chunks_fuel f2 t.
Proof.
  revert f2 t. induction f1 as [|f1 IH]; intros f2 t H1 H2.
  - destruct t; [|simpl in H1; lia]. now destruct f2.
  - destruct f2 as [|f2]; [destruct t; [reflexivity | simpl in H2; lia]|].
    destruct t as [|c r]; [reflexivity|]. simpl in H1, H2.
    cbn [chunks_fuel].
    pose proof (span_name_length r) as Hl.
    destruct (span_name r) as [name rest]. simpl in Hl.
    destruct (match_arg rest) as [[arg rest']|] eqn:Ea.
    + apply match_arg_shorter in Ea.
      rewrite (IH f2 rest') by lia. now rewrite (IH f2 r) by lia.
    + rewrite (IH f2 rest) by lia. now rewrite (IH f2 r) by lia.
Qed.

Lemma chunks_other c s :
  Ascii.eqb c ":" = false -> chunks (String c s) = cons_first c (chunks s).
Proof.
  intros H. unfold chunks. cbn [String.length chunks_fuel]. rewrite H.
  apply cons_first_chunks.
Qed.

Lemma chunks_colon_short s :
  (2 <=? String.length (fst (span_name s)))%nat = false ->
  chunks (String ":" s) = cons_first ":" (chunks s).
Proof.
  intros H. unfold chunks.
  cbn [String.length chunks_fuel Ascii.eqb Bool.eqb].
  destruct (span_name s) as [name rest]. cbn [fst] in H. rewrite H.
  apply cons_first_chunks.
Qed.

Lemma chunks_match s name rest :
  span_name s = (name, rest) ->
  (2 <=? String.length name)%nat = true ->
  chunks (String ":" s) =
  match match_arg rest with
  | Some (arg, rest') =>
      (EmptyString, mkRef name arg "-" (fst (chunks rest')) :: snd (chunks rest'))
  | None =>
      (EmptyString, mkRef name "undefined" "-" (fst (chunks rest)) :: snd (chunks rest))
  end.
Proof.
  intros Hs Hn. unfold chunks.
  cbn [String.length chunks_fuel Ascii.eqb Bool.eqb].
  pose proof (span_name_length s) as Hl. rewrite Hs in Hl |- *. cbn [fst snd] in Hl.
  rewrite Hn. destruct (match_arg rest) as [[arg rest']|] eqn:Ea.
  - apply match_arg_shorter in Ea.
    rewrite (chunks_fuel_any _ (String.length rest') rest') by lia.
    now destruct (chunks_fuel _ rest').
  - rewrite (chunks_fuel_any _ (String.length rest) rest) by lia.
    now destruct (chunks_fuel _ rest).
Qed.

Lemma chunks_noref s : has_token_ref s = false -> chunks s = (s, []).
Proof.
  induction s as [|c s IH]; [reflexivity|]. simpl.
  intros [Hc Hs]%orb_false_elim.
  destruct (Ascii.eqb_spec c ":") as [->|Hne].
  - simpl in Hc. rewrite chunks_colon_short by now apply starts_name2_span.
    now rewrite IH.
  - apply Ascii.eqb_neq in Hne. rewrite chunks_other by exact Hne. now rewrite IH.
Qed.

(** Literal text before a colon is the start of the first chunk. *)
Lemma chunks_prefix pre rest :
  has_token_ref pre = false ->
  chunks (pre +:+ String ":" rest) =
  (pre +:+ fst (chunks (String ":" rest)), snd (chunks (String ":" rest))).
Proof.
  induction pre as [|c pre IH]; [now destruct (chunks _)|]. simpl.
  intros [Hc Hs]%orb_false_elim.
  destruct (Ascii.eqb_spec c ":") as [->|Hne].
  - simpl in Hc.
    rewrite chunks_colon_short by now apply starts_name2_span_colon.
    now rewrite IH.
  - apply Ascii.eqb_neq in Hne. rewrite chunks_other by exact Hne. now rewrite IH.
Qed.

Lemma span_name_stop name rest :
  all_name_chars name = true -> starts_name rest = false ->
  span_name (name +:+ rest) = (name, rest).
Proof.
  intros Hn Hr. induction name as [|c name IH]; simpl in *.
  - destruct rest as [|c rest]; [reflexivity|]. simpl in Hr |- *. now rewrite Hr.
  - apply andb_prop in Hn as [Hc Hn]. now rewrite Hc, IH.
Qed.

Lemma span_arg_stop a rest :
  no_bracket a = true ->
  span_arg (a +:+ String "]" rest) = (a, String "]" rest).
Proof.
  induction a as [|c a IH]; [reflexivity|]. simpl.
  intros [Hc Ha]%andb_prop. apply negb_true_iff in Hc. now rewrite Hc, IH.
Qed.

Lemma match_arg_bracket a rest :
  String.eqb a EmptyString = false -> no_bracket a = true ->
  match_arg ("[" +:+ a +:+ String "]" rest) = Some (a, rest).
Proof.
  intros Hne Hnb. rewrite match_arg_eq. simpl. rewrite span_arg_stop by exact Hnb.
  destruct a; [discriminate | reflexivity].
Qed.

Lemma match_arg_no_bracket s :
  match s with String c _ => Ascii.eqb c "[" | EmptyString => false end = false ->
  match_arg s = None.
Proof. intros H. rewrite match_arg_eq. destruct s; [reflexivity | now rewrite H]. Qed.

Lemma pieces_source_head ps :
  ps <> [] -> exists rest, pieces_source ps = String ":" rest.
Proof. destruct ps as [|p ps]; [congruence|]. intros _. simpl. eauto. Qed.

(** The chunks of literal text followed by pieces. *)
Lemma chunks_text_pieces text ps refs :
  has_token_ref text = false ->
  chunks (pieces_source ps) = (EmptyString, refs) ->
  chunks (text +:+ pieces_source ps) = (text, refs).
Proof.
  intros Ht Hps. destruct ps as [|p ps].
  - simpl in *. rewrite append_nil_r, chunks_noref by exact Ht.
    now injection Hps as <-.
  - destruct (pieces_source_head (p :: ps)) as [rest Hrest]; [discriminate|].
    rewrite Hrest in *. rewrite chunks_prefix by exact Ht.
    rewrite Hps. cbn [fst snd]. now rewrite append_nil_r.
Qed.

Lemma starts_pieces_source ps :
  starts_name (pieces_source ps) = false
  /\ match pieces_source ps with
     | String c _ => Ascii.eqb c "["
     | EmptyString => false
     end = false.
Proof. destruct ps; split; reflexivity. Qed.

Lemma starts_text text rest :
  continues text = false ->
  starts_name rest = false ->
  match rest with String c _ => Ascii.eqb c "[" | EmptyString => false end = false ->
  starts_name (text +:+ rest) = false
  /\ match text +:+ rest with
     | String c _ => Ascii.eqb c "["
     | EmptyString => false
     end = false.
Proof.
  destruct text as [|c text]; [now split|]. simpl.
  intros [H1 H2]%orb_false_elim _ _. now split.
Qed.

(** The pieces of a template are the references the pattern finds in it. *)
Lemma chunks_pieces ps :
  forallb piece_ok ps = true ->
  chunks (pieces_source ps) = (EmptyString, map ref_of ps).
Proof.
  induction ps as [|p ps IH]; [reflexivity|]. simpl.
  intros [Hp Hps]%andb_prop. specialize (IH Hps).
  unfold piece_ok in Hp. destruct p as [name arg text]. cbn [piece_name piece_arg piece_text] in Hp.
  apply andb_prop in Hp as [Hp Harg]. apply andb_prop in Hp as [Hp Href].
  apply andb_prop in Hp as [Hname Hplain]. apply negb_true_iff in Href.
  pose proof Hname as Hname'. apply andb_prop in Hname' as [Hall Hlen].
  unfold piece_source, ref_of. cbn [piece_name piece_arg piece_text].
  pose proof (chunks_text_pieces text ps _ Href IH) as Ht.
  destruct arg as [a|].
  - apply andb_prop in Harg as [Harg Hpa]. apply andb_prop in Harg as [Hne Hnb].
    apply negb_true_iff in Hne.
    change (String ":" name +:+ ?x) with (String ":" (name +:+ x)).
    rewrite !append_assoc.
    change (String ":" name +:+ ?x) with (String ":" (name +:+ x)).
    erewrite chunks_match; [| apply span_name_stop; [exact Hall | reflexivity] | exact Hlen].
    assert (Heq : String "[" (a +:+ "]") +:+ text +:+ pieces_source ps
                  = "[" +:+ a +:+ String "]" (text +:+ pieces_source ps))
      by (simpl; now rewrite append_assoc).
    rewrite Heq, match_arg_bracket by assumption. now rewrite Ht.
  - apply negb_true_iff in Harg.
    destruct (starts_pieces_source ps) as [Hs1 Hs2].
    destruct (starts_text text _ Harg Hs1 Hs2) as [H1 H2].
    change (String ":" name +:+ ?x) with (String ":" (name +:+ x)).
    rewrite !append_assoc.
    change (String ":" name +:+ ?x) with (String ":" (name +:+ x)).
    cbn [String.append].
    erewrite chunks_match; [| apply span_name_stop; [exact Hall | exact H1] | exact Hlen].
    rewrite match_arg_no_bracket by exact H2. now rewrite Ht.
Qed.

Lemma chunks_template_of first ps :
  has_token_ref first = false -> forallb piece_ok ps = true ->
  chunks (template_of first ps) = (first, map ref_of ps).
Proof.
  intros Hf Hps. unfold template_of.
  now apply chunks_text_pieces, chunks_pieces.
Qed.

Lemma plain_app a b : plain (a +:+ b) = plain a && plain b.
Proof.
  induction a as [|c a IH]; [reflexivity|]. simpl. rewrite IH.
  now rewrite !andb_assoc.
Qed.

Lemma plain_pieces ps : forallb piece_ok ps = true -> plain (pieces_source ps) = true.
Proof.
  induction ps as [|p ps IH]; [reflexivity|]. simpl.
  intros [Hp Hps]%andb_prop. specialize (IH Hps).
  unfold piece_ok in Hp. destruct p as [name arg text]. cbn [piece_name piece_arg piece_text] in Hp.
  apply andb_prop in Hp as [Hp Harg]. apply andb_prop in Hp as [Hp Href].
  apply andb_prop in Hp as [Hname Hplain].
  apply andb_prop in Hname as [Hall _]. apply all_name_chars_plain in Hall.
  unfold piece_source. cbn [piece_name piece_arg piece_text].
  rewrite !plain_app, IH, Hplain.
  change (plain (String ":" name)) with (plain name). rewrite Hall.
  destruct arg as [a|]; [|reflexivity].
  apply andb_prop in Harg as [_ Hpa].
  change (plain (String "[" (a +:+ "]"))) with (plain (a +:+ "]")).
  rewrite plain_app, Hpa. reflexivity.
Qed.

(** ** Compiling and rendering any template without backslash *)

Lemma compile_plain t :
  plain t = true -> compile (VStr t) = Ret (FCompiled (compile_js t)).
Proof.
  intros Hp. unfold compile, new_Function. now rewrite (parse_body_chunks _ Hp).
Qed.

(** X1: [compile] returns a function for every template that has no
    backslash and no line terminator, whatever quotes, colons and brackets
    it holds. *)
Theorem compile_succeeds t :
  plain t = true -> compile (VStr t) = Ret (FCompiled (compile_js t)).
Proof.
  intros Hp. unfold compile, new_Function.
  rewrite (parse_body_chunks _ Hp). reflexivity.
Qed.

Section Rendering.

Variable user_apply : nat -> list Arg -> Outcome Val.

Lemma render_plain t tokens rq rs :
  plain t = true ->
  render_template user_apply (VStr t) tokens rq rs =
  (s <- eval_refs user_apply tokens rq rs (fst (chunks t)) (snd (chunks t));;
   Ret (VStr s)).
Proof.
  intros Hp. unfold render_template. rewrite (compile_plain _ Hp).
  cbn [obind call_render]. unfold run_compiled.
  now rewrite (parse_body_chunks _ Hp).
Qed.

Lemma render_pieces first ps tokens rq rs :
  plain first = true -> has_token_ref first = false ->
  forallb piece_ok ps = true ->
  render_template user_apply (VStr (template_of first ps)) tokens rq rs =
  (s <- eval_refs user_apply tokens rq rs first (map ref_of ps);;
   Ret (VStr s)).
Proof.
  intros Hp Hr Hps. rewrite render_plain.
  - now rewrite (chunks_template_of _ _ Hr Hps).
  - unfold template_of. now rewrite plain_app, Hp, plain_pieces.
Qed.

(** X2: for a template without backslash and line terminator, the
    compiled render function returns the literal chunks of the template
    with, for each reference the pattern finds in the template as written,
    the result of its extractor or the dash; the quotes that [compile]
    escapes neither hide nor make a reference, and reach an extractor's
    argument as they were written. *)
Theorem render_chunks t tokens rq rs :
  plain t = true ->
  render_template user_apply (VStr t) tokens rq rs =
  (s <- eval_refs user_apply tokens rq rs (fst (chunks t)) (snd (chunks t));;
   Ret (VStr s)).
Proof.
  intros Hp. unfold render_template, compile, new_Function.
  rewrite (parse_body_chunks _ Hp). cbn [obind call_render].
  unfold run_compiled. rewrite (parse_body_chunks _ Hp). reflexivity.
Qed.

(** X3: a template written from a leading literal and well-formed pieces
    renders as that literal followed, piece by piece, by the result of
    the piece's extractor (or the dash) and the piece's literal text; the
    extractor is called with the bracket argument as written, or with the
    string [undefined] when the piece has none. *)
Theorem render_template_of first ps tokens rq rs :
  plain first = true -> has_token_ref first = false ->
  forallb piece_ok ps = true ->
  render_template user_apply (VStr (template_of first ps)) tokens rq rs =
  (s <- eval_refs user_apply tokens rq rs first (map ref_of ps);;
   Ret (VStr s)).
Proof.
  intros Hp Hr Hps.
  assert (Hplain : plain (template_of first ps) = true)
    by (unfold template_of; now rewrite plain_app, Hp, plain_pieces).
  rewrite (render_plain _ _ _ _ Hplain).
  rewrite (chunks_template_of _ _ Hr Hps). reflexivity.
Qed.

Lemma eval_refs_total tokens rq rs refs :
  Forall (renders user_apply tokens rq rs) refs ->
  forall acc, exists out, eval_refs user_apply tokens rq rs acc refs = Ret out.
Proof.
  induction 1 as [|r refs (v & s & Hc & Hs) _ IH]; intros acc; simpl; [eauto|].
  rewrite Hc. simpl. rewrite Hs. simpl. apply IH.
Qed.

(** X4: the render function compiled from a template without backslash
    returns a string, and raises nothing, whenever each reference of the
    template names a registered function that returns a primitive
    value. *)
Theorem render_returns t tokens rq rs :
  plain t = true ->
  Forall (renders user_apply tokens rq rs) (snd (chunks t)) ->
  exists out, render_template user_apply (VStr t) tokens rq rs = Ret (VStr out).
Proof.
  intros Hp Hall. rewrite (render_plain _ _ _ _ Hp).
  destruct (eval_refs_total _ _ _ _ Hall (fst (chunks t))) as [out ->].
  now exists out.
Qed.

(** X5: the first reference whose extractor raises decides the outcome:
    the render function raises that exception, whatever the references
    after it would do. *)
Theorem render_first_exception first ps1 p ps2 tokens rq rs e :
  plain first = true -> has_token_ref first = false ->
  forallb piece_ok (ps1 ++ p :: ps2) = true ->
  Forall (renders user_apply tokens rq rs) (map ref_of ps1) ->
  call_named user_apply tokens (piece_name p) rq rs
    (default "undefined" (piece_arg p)) = Throw e ->
  render_template user_apply (VStr (template_of first (ps1 ++ p :: ps2)))
    tokens rq rs = Throw e.
Proof.
  intros Hp Hr Hok Hall Hthrow.
  rewrite (render_pieces _ _ _ _ _ Hp Hr Hok). clear Hp Hr Hok.
  rewrite map_app. simpl. generalize first.
  induction Hall as [|r refs (v & s & Hc & Hs) _ IH]; intros acc; simpl.
  - unfold ref_of at 1. cbn [ref_name ref_arg]. now rewrite Hthrow.
  - rewrite Hc. simpl. rewrite Hs. simpl. apply IH.
Qed.

End Rendering.

(** ** The built-in tokens, rendered *)

Lemma toLowerCase_lower c : lower_char (lower_char c) = lower_char c.
Proof. destruct c as [[] [] [] [] [] [] [] []]; reflexivity. Qed.

Lemma toLowerCase_idempotent s : toLowerCase (toLowerCase s) = toLowerCase s.
Proof.
  induction s as [|c s IH]; [reflexivity|]. simpl.
  now rewrite toLowerCase_lower, IH.
Qed.

Section BuiltinTokens.

Variable user_apply : nat -> list Arg -> Outcome Val.

(** X6: [:status] renders as the dash as long as the headers of the
    response are not sent, and as the status code once they are (as the
    dash again if that code is 0 or missing). *)
Theorem status_render tokens rq rs :
  prop tokens "status" = VFun (FToken TStatus) ->
  let r := render_template user_apply (VStr ":status") tokens rq rs in
  (truthy (headersSent rs) = false -> r = Ret (VStr "-"))
  /\ (forall s, truthy (headersSent rs) = true ->
        truthy (statusCode rs) = true -> to_string (statusCode rs) = Ret s ->
        r = Ret (VStr s))
  /\ (truthy (headersSent rs) = true -> truthy (statusCode rs) = false ->
      r = Ret (VStr "-")).
Proof.
  intros Htok r. subst r.
  rewrite (render_single user_apply "status" tokens rq rs eq_refl),
    (call_named_plain user_apply "status" _ _ _ _ _ eq_refl Htok).
  cbn [call_token builtin_token obind]. repeat split.
  - now intros ->.
  - intros s -> Ht Hs. unfold or_val. now rewrite Ht, Hs.
  - intros -> Ht. unfold or_val. now rewrite Ht.
Qed.

(** X7: [:referrer] renders the [referer] header, the header spelled
    [referrer] when that one is missing or empty, and the dash when the
    request has neither. *)
Theorem referrer_render tokens rq rs :
  prop tokens "referrer" = VFun (FToken TReferrer) ->
  let r := render_template user_apply (VStr ":referrer") tokens rq rs in
  (forall s, headers rq !! "referer" = Some (VStr s) -> s <> EmptyString ->
     r = Ret (VStr s))
  /\ (forall s, truthy (prop (headers rq) "referer") = false ->
        headers rq !! "referrer" = Some (VStr s) -> s <> EmptyString ->
        r = Ret (VStr s))
  /\ (headers rq !! "referer" = None -> headers rq !! "referrer" = None ->
      r = Ret (VStr "-")).
Proof.
  intros Htok r. subst r.
  rewrite (render_single user_apply "referrer" tokens rq rs eq_refl),
    (call_named_plain user_apply "referrer" _ _ _ _ _ eq_refl Htok).
  cbn [call_token builtin_token obind].
  assert (Hne : forall s, s <> EmptyString -> truthy (VStr s) = true).
  { intros s Hs. simpl. apply negb_true_iff, String.eqb_neq, Hs. }
  assert (Hsome : forall (m : gmap string Val) k v, m !! k = Some v -> prop m k = v)
    by (intros m k v H; unfold prop; now rewrite H).
  repeat split.
  - intros s H1 Hs. rewrite (Hsome _ _ _ H1).
    unfold or_val. now rewrite (Hne s Hs), (Hne s Hs).
  - intros s H1 H2 Hs. unfold or_val at 2. rewrite H1, (Hsome _ _ _ H2).
    unfold or_val. now rewrite (Hne s Hs).
  - intros H1 H2. unfold prop. now rewrite H1, H2.
Qed.

Lemma render_one_arg name a tokens rq rs :
  valid_name name = true -> arg_ok a = true ->
  render_template user_apply
    (VStr (template_of EmptyString [mkPiece name (Some a) EmptyString]))
    tokens rq rs =
  (v <- call_named user_apply tokens name rq rs a;;
   s <- to_string (or_val v (VStr "-"));;
   Ret (VStr s)).
Proof.
  intros Hn Ha. rewrite render_pieces; try reflexivity.
  - cbn [map ref_of piece_name piece_arg piece_text default eval_refs
         ref_name ref_arg ref_default ref_text].
    destruct (call_named _ _ _ _ _ _) as [v| |]; cbn [obind]; try reflexivity.
    destruct (to_string _); simpl; rewrite ?append_nil_r; reflexivity.
  - cbn [forallb]. unfold piece_ok. cbn [piece_name piece_arg piece_text].
    unfold arg_ok in Ha. now rewrite Hn, Ha.
Qed.

(** X8: [:req[field]] reads [req.headers] under the field name in lower
    case. It renders the header stored there, and the dash when none is
    stored and the name in lower case is none that an object inherits; two
    spellings of the field that differ only in the case of their letters
    render alike. *)
Theorem req_header_render tokens rq rs a :
  prop tokens "req" = VFun (FToken TReq) -> arg_ok a = true ->
  let render c :=
    render_template user_apply
      (VStr (template_of EmptyString [mkPiece "req" (Some c) EmptyString]))
      tokens rq rs in
  (forall v, headers rq !! toLowerCase a = Some v ->
     render a = (s <- to_string (or_val v (VStr "-"));; Ret (VStr s)))
  /\ (headers rq !! toLowerCase a = None ->
      name_in (toLowerCase a) object_prototype_names = false ->
      render a = Ret (VStr "-"))
  /\ (forall b, arg_ok b = true -> toLowerCase b = toLowerCase a ->
        render b = render a).
Proof.
  intros Htok Ha render.
  assert (H : forall c, arg_ok c = true ->
            render c
            = (v <- object_get (headers rq) (toLowerCase c);;
               s <- to_string (or_val v (VStr "-"));;
               Ret (VStr s))).
  { intros c Hc. subst render. cbv beta.
    rewrite (render_one_arg "req" c tokens rq rs eq_refl Hc),
      (call_named_plain user_apply "req" _ _ _ _ _ eq_refl Htok).
    reflexivity. }
  split; [|split].
  - intros v Hv. rewrite (H a Ha). unfold object_get. now rewrite Hv.
  - intros Hnone Hin. rewrite (H a Ha). unfold object_get.
    now rewrite Hnone, Hin.
  - intros b Hb Hlow. now rewrite (H b Hb), (H a Ha), Hlow.
Qed.

(** X9: [:res[field]] reads the header store of the response under the
    field name in lower case and renders the header stored there, or the
    dash when none is; a response that has no header store yet renders the
    dash and raises nothing. Both dashes need the name in lower case to be
    none that an object inherits. *)
Theorem res_header_render tokens rq rs a :
  prop tokens "res" = VFun (FToken TRes) -> arg_ok a = true ->
  let r := render_template user_apply
             (VStr (template_of EmptyString [mkPiece "res" (Some a) EmptyString]))
             tokens rq rs in
  (forall h v, _headers rs = Some h -> h !! toLowerCase a = Some v ->
     r = (s <- to_string (or_val v (VStr "-"));; Ret (VStr s)))
  /\ (forall h, _headers rs = Some h -> h !! toLowerCase a = None ->
        name_in (toLowerCase a) object_prototype_names = false ->
        r = Ret (VStr "-"))
  /\ (_headers rs = None ->
      name_in (toLowerCase a) object_prototype_names = false ->
      r = Ret (VStr "-")).
Proof.
  intros Htok Ha r. subst r.
  rewrite (render_one_arg "res" a tokens rq rs eq_refl Ha),
    (call_named_plain user_apply "res" _ _ _ _ _ eq_refl Htok).
  cbn [call_token builtin_token obind]. unfold object_get. split; [|split].
  - intros h v -> Hv. cbn [default id]. now rewrite Hv.
  - intros h -> Hnone Hin. cbn [default id]. now rewrite Hnone, Hin.
  - intros -> Hin. cbn [default]. rewrite lookup_empty. now rewrite Hin.
Qed.

End BuiltinTokens.

(** ** The registry and the configuration *)

Lemma in_order_stop steps (o : Outcome Registry) :
  (forall e, o <> Ret e) ->
  fold_left (fun o f => e' <- o;; f e') steps o = o.
Proof.
  intros H. induction steps as [|f steps IH]; [reflexivity|]. simpl.
  destruct o as [e| |]; [now destruct (H e) | exact IH | exact IH].
Qed.

Lemma in_order_cons f steps e :
  in_order (f :: steps) e = (e' <- f e;; in_order steps e').
Proof.
  unfold in_order. simpl. destruct (f e) as [e'| |]; [reflexivity| |];
    now apply in_order_stop.
Qed.

(** What one registration under a registrable name does while the
    registration functions are in place. *)
Lemma register_one e r :
  export_get e "token" = Ret (VFun FApiToken) ->
  export_get e "format" = Ret (VFun FApiFormat) ->
  registrable (reg_name r) = true ->
  exists e', register r e = Ret e'
    /\ export_get e' "token" = Ret (VFun FApiToken)
    /\ export_get e' "format" = Ret (VFun FApiFormat)
    /\ (assignable (reg_name r) = true -> export_get e' (reg_name r) = Ret (reg_value r))
    /\ (forall n, assignable n = false \/ n <> reg_name r ->
          export_get e' n = export_get e n).
Proof.
  intros Ht Hf Hr.
  assert (Hreg : register r e = export_set e (reg_name r) (reg_value r)).
  { destruct r as [n v|n v]; cbn [register reg_name reg_value];
      unfold exports_token, exports_format; rewrite ?Ht, ?Hf; reflexivity. }
  rewrite Hreg. clear Hreg.
  apply andb_prop in Hr as [Hr Hslot]. apply andb_prop in Hr as [Hnt Hnf].
  apply negb_true_iff, String.eqb_neq in Hnt, Hnf.
  unfold export_set, assignable in *.
  destruct (export_slot (reg_name r)) as [v0| | |] eqn:E; try discriminate.
  - exists e. repeat split; try assumption. discriminate.
  - exists (<[reg_name r := reg_value r]> e). repeat split.
    + now rewrite export_get_insert_ne.
    + now rewrite export_get_insert_ne.
    + intros _. apply export_get_insert. unfold assignable. now rewrite E.
    + intros n [Hn|Hn]; [|now apply export_get_insert_ne].
      apply export_get_insert_ne. intros <-. rewrite E in Hn. discriminate.
  - exists (<[reg_name r := reg_value r]> e). repeat split.
    + now rewrite export_get_insert_ne.
    + now rewrite export_get_insert_ne.
    + intros _. apply export_get_insert. unfold assignable. now rewrite E.
    + intros n [Hn|Hn]; [|now apply export_get_insert_ne].
      apply export_get_insert_ne. intros <-. rewrite E in Hn. discriminate.
Qed.

(** X10: the last registration wins, silently. After any calls of
    [exports.token] and [exports.format] under registrable names, every
    call has returned, and the lookup of a name yields the value of the
    last registration under it, or what it yielded before when there is
    none; but a registration under [name] or [length], which are not
    writable, is ignored, and the lookup there yields what it did. *)
Theorem registration_lookup (e : Registry) (rs : list Registration) :
  export_get e "token" = Ret (VFun FApiToken) ->
  export_get e "format" = Ret (VFun FApiFormat) ->
  forallb (fun r => registrable (reg_name r)) rs = true ->
  exists e',
    register_all rs e = Ret e'
    /\ forall n,
         export_get e' n =
         if assignable n then
           match last_registered n rs with
           | Some v => Ret v
           | None => export_get e n
           end
         else export_get e n.
Proof.
  revert e. induction rs as [|r rs IH]; intros e Ht Hf Hall.
  - exists e. split; [reflexivity|]. intros n. simpl. now destruct (assignable n).
  - cbn [forallb] in Hall. apply andb_prop in Hall as [Hr Hall].
    destruct (register_one e r Ht Hf Hr) as (e1 & Hreg & Ht1 & Hf1 & Hset & Hother).
    destruct (IH e1 Ht1 Hf1 Hall) as (e' & Hrun & Hget).
    exists e'. split.
    + unfold register_all in *. cbn [map]. now rewrite in_order_cons, Hreg.
    + intros n. rewrite Hget. cbn [last_registered].
      destruct (assignable n) eqn:Ha.
      * destruct (last_registered n rs) as [v|]; [reflexivity|].
        destruct (String.eqb_spec (reg_name r) n) as [<-|Hne].
        -- now apply Hset.
        -- apply Hother. right. congruence.
      * apply Hother. now left.
Qed.

(** X11: the three built-in templates compile, and every token they refer
    to is registered with one of the built-in extractors when the module
    is loaded. *)
Theorem builtin_formats_registered :
  Forall (fun t =>
            compile (VStr t) = Ret (FCompiled (compile_js t))
            /\ Forall (builtin_name initial_exports) (snd (chunks t)))
    [default_format; short_format; tiny_format].
Proof.
  repeat constructor;
    try (apply compile_plain; vm_compute; reflexivity);
    vm_compute; repeat constructor; eexists; reflexivity.
Qed.

Lemma logger_fst (user_key : nat -> Outcome string) a w :
  fst (logger user_key a w) =
  (fmt <- settle_format user_key (w_exports w) (opt_format (normalise a));;
   Ret (mkLogger (opt_immediate (normalise a))
          (or_val (opt_skip (normalise a)) (VFun FNeverSkip))
          fmt (truthy (opt_buffer (normalise a))))).
Proof. rewrite logger_unfold. now destruct (settle_format _ _ _). Qed.

(** What the resolution of line 46 yields decides what [logger] does. *)
Lemma settle_found (user_key : nat -> Outcome string) e f k v :
  to_key user_key f = Ret k -> export_get e k = Ret v -> truthy v = true ->
  resolve_format user_key e f = Ret v.
Proof.
  intros Hk Hg Ht. unfold resolve_format, lookup_format.
  rewrite Hk. cbn [obind]. rewrite Hg. cbn [obind]. now rewrite Ht.
Qed.

Lemma settle_given (user_key : nat -> Outcome string) e f k v :
  to_key user_key f = Ret k -> export_get e k = Ret v -> truthy v = false ->
  truthy f = true ->
  resolve_format user_key e f = Ret f.
Proof.
  intros Hk Hg Hv Hf. unfold resolve_format, lookup_format.
  rewrite Hk. cbn [obind]. rewrite Hg. cbn [obind]. now rewrite Hv, Hf.
Qed.

Lemma settle_default (user_key : nat -> Outcome string) e f k v :
  to_key user_key f = Ret k -> export_get e k = Ret v -> truthy v = false ->
  truthy f = false ->
  resolve_format user_key e f = Ret (prop e "default").
Proof.
  intros Hk Hg Hv Hf. unfold resolve_format, lookup_format.
  rewrite Hk. cbn [obind]. rewrite Hg. cbn [obind]. rewrite Hv, Hf.
  now apply export_get_plain.
Qed.

Lemma logger_number (user_key : nat -> Outcome string) a w k :
  resolve_format user_key (w_exports w) (opt_format (normalise a)) = Ret (VNum k) ->
  logger user_key a w = (Throw TypeError, w).
Proof.
  intros H. rewrite logger_unfold. unfold settle_format. now rewrite H.
Qed.

(** X12: how [logger] settles its format. A name under which [exports]
    holds a template stands for that template, and one under which it
    holds a function for that function, which is not compiled; a string
    under which [exports] holds nothing truthy is itself the template;
    with no format given the template registered as [default] is used; a
    function of the host is used as it is when [exports] holds nothing
    truthy under the text the function converts to. The names are those of
    every property of [exports]: the format [name] stands for the template
    [logger], the name of the function [exports], and under [length] the
    number 1 is found, which cannot be compiled. *)
Theorem logger_format_resolution (user_key : nat -> Outcome string)
    (a : LoggerArg) (w : World) :
  let e := w_exports w in
  let given := opt_format (normalise a) in
  let compiled t := VFun (FCompiled (compile_js t)) in
  (forall n tpl,
     given = VStr n -> export_get e n = Ret (VStr tpl) ->
     tpl <> EmptyString -> plain tpl = true ->
     configured user_key a w (compiled tpl))
  /\ (forall n f,
        given = VStr n -> export_get e n = Ret (VFun f) ->
        configured user_key a w (VFun f))
  /\ (forall t v,
        given = VStr t -> export_get e t = Ret v -> truthy v = false ->
        t <> EmptyString -> plain t = true ->
        configured user_key a w (compiled t))
  /\ (forall v d,
        given = VUndef -> export_get e "undefined" = Ret v -> truthy v = false ->
        e !! "default" = Some (VStr d) -> plain d = true ->
        configured user_key a w (compiled d))
  /\ (forall id k v,
        given = VFun (FUser id) -> user_key id = Ret k ->
        export_get e k = Ret v -> truthy v = false ->
        configured user_key a w (VFun (FUser id)))
  /\ (forall n k,
        given = VStr n -> export_get e n = Ret (VNum k) -> k <> 0 ->
        logger user_key a w = (Throw TypeError, w))
  /\ (given = VStr "name" -> configured user_key a w (compiled "logger"))
  /\ (given = VStr "length" -> logger user_key a w = (Throw TypeError, w)).
Proof.
  intros e given compiled. subst e given compiled. cbv beta.
  assert (Hne : forall s, s <> EmptyString -> truthy (VStr s) = true).
  { intros s Hs. simpl. apply negb_true_iff, String.eqb_neq, Hs. }
  assert (H1 : forall n tpl,
            opt_format (normalise a) = VStr n ->
            export_get (w_exports w) n = Ret (VStr tpl) ->
            tpl <> EmptyString -> plain tpl = true ->
            configured user_key a w (VFun (FCompiled (compile_js tpl)))).
  { intros n tpl Hf Hg Htpl Hp. unfold configured.
    rewrite logger_fst, Hf. unfold settle_format.
    rewrite (settle_found user_key _ (VStr n) n (VStr tpl) eq_refl Hg (Hne _ Htpl)).
    cbn [obind]. now rewrite (compile_plain _ Hp). }
  assert (H6 : forall n k,
            opt_format (normalise a) = VStr n ->
            export_get (w_exports w) n = Ret (VNum k) -> k <> 0 ->
            logger user_key a w = (Throw TypeError, w)).
  { intros n k Hf Hg Hk. apply (logger_number user_key a w k). rewrite Hf.
    apply (settle_found user_key _ (VStr n) n (VNum k) eq_refl Hg).
    simpl. now apply negb_true_iff, Z.eqb_neq. }
  split; [exact H1|]. split; [|split; [|split; [|split; [|split; [|split]]]]].
  - intros n f Hf Hg. unfold configured. rewrite logger_fst, Hf.
    unfold settle_format.
    now rewrite (settle_found user_key _ (VStr n) n (VFun f) eq_refl Hg eq_refl).
  - intros t v Hf Hg Hv Ht Hp. unfold configured. rewrite logger_fst, Hf.
    unfold settle_format.
    rewrite (settle_given user_key _ (VStr t) t v eq_refl Hg Hv (Hne _ Ht)).
    cbn [obind]. now rewrite (compile_plain _ Hp).
  - intros v d Hf Hg Hv Hd Hp. unfold configured. rewrite logger_fst, Hf.
    unfold settle_format.
    rewrite (settle_default user_key _ VUndef "undefined" v eq_refl Hg Hv eq_refl).
    unfold prop. rewrite Hd. cbn [default id obind].
    now rewrite (compile_plain _ Hp).
  - intros id k v Hf Hk Hg Hv. unfold configured. rewrite logger_fst, Hf.
    unfold settle_format.
    now rewrite (settle_given user_key _ (VFun (FUser id)) k v Hk Hg Hv eq_refl).
  - exact H6.
  - intros Hf. apply (H1 "name" "logger" Hf); [reflexivity | discriminate | reflexivity].
  - intros Hf. apply (H6 "length" 1 Hf); [reflexivity | discriminate].
Qed.

(** X13: a format that is neither a function nor a string, and names no
    registered format, makes [logger] raise a TypeError; nothing has been
    set up by then, not even the flush timer. *)
Theorem logger_rejects_format (user_key : nat -> Outcome string)
    (a : LoggerArg) (w : World) (v : Val) :
  opt_format (normalise a) = v ->
  v = VBool true \/ (exists n, v = VNum n /\ n <> 0) ->
  lookup_format user_key (w_exports w) v = Ret VUndef ->
  logger user_key a w = (Throw TypeError, w).
Proof.
  intros Hv Hcase Hlook.
  assert (Hres : resolve_format user_key (w_exports w) v = Ret v).
  { unfold resolve_format. rewrite Hlook. cbn [obind truthy].
    destruct Hcase as [->|(n & -> & Hn)]; [reflexivity|].
    cbn [truthy]. apply Z.eqb_neq in Hn. now rewrite Hn. }
  rewrite logger_unfold, Hv. unfold settle_format. rewrite Hres.
  destruct Hcase as [->|(n & -> & Hn)]; reflexivity.
Qed.


(** ** Order and conservation in the writers *)

Lemma join_app (a b : list string) : join (a ++ b) = join a +:+ join b.
Proof.
  unfold join. induction a as [|x a IH]; [reflexivity|]. simpl.
  now rewrite IH, append_assoc.
Qed.

Lemma flush_delivered w : delivered (flush w) = delivered w.
Proof.
  unfold delivered, flush. destruct (w_buf w) as [|s b] eqn:E; [now rewrite E|].
  destruct w; simpl in *. subst.
  rewrite join_app. simpl. now rewrite !append_nil_r.
Qed.

Lemma advance_delivered dt w : delivered (advance dt w) = delivered w.
Proof.
  unfold advance. destruct (w_timer w) as [[d due]|].
  - assert (H : forall k, delivered (Nat.iter k flush w) = delivered w).
    { induction k as [|k IH]; [reflexivity|]. simpl. now rewrite flush_delivered. }
    specialize (H (fires d due (w_now w + dt))).
    destruct (Nat.iter _ flush w); exact H.
  - now destruct w.
Qed.

Lemma append_lines_cons b d s items w :
  append_lines b ((d, s) :: items) w
  = append_lines b items (snd (stream_write b s (advance d w))).
Proof. reflexivity. Qed.

Lemma write_delivered s w :
  delivered (snd (stream_write true s w)) = delivered w +:+ s.
Proof.
  unfold delivered, stream_write, modify. destruct w; simpl.
  rewrite join_app. simpl. now rewrite append_nil_r, !append_assoc.
Qed.

Lemma batching_order_lemma (items : list (Z * string)) (dt : Z) (w : World) :
  delivered (advance dt (append_lines true items w))
  = delivered w +:+ join (map snd items).
Proof.
  rewrite advance_delivered. revert w.
  induction items as [|[d s] items IH]; intros w.
  - simpl. now rewrite append_nil_r.
  - rewrite append_lines_cons, IH, write_delivered, advance_delivered.
    simpl. now rewrite append_assoc.
Qed.

(** X15: the batching writer neither loses, repeats nor reorders: after
    any lines handed to it with any waits in between and after, what the
    destination has received followed by what is still buffered is what
    was there before followed by those lines in order. *)
Theorem batching_keeps_order (items : list (Z * string)) (dt : Z) (w : World) :
  delivered (advance dt (append_lines true items w))
  = delivered w +:+ join (map snd items).
Proof.
  rewrite advance_delivered. revert w.
  induction items as [|[d s] items IH]; intros w.
  - simpl. apply eq_sym, append_nil_r.
  - rewrite append_lines_cons, IH, write_delivered, advance_delivered.
    simpl. apply append_assoc.
Qed.

Lemma advance_idle dt w :
  w_buf w = [] ->
  w_out (advance dt w) = w_out w /\ w_buf (advance dt w) = [].
Proof.
  intros Hb. unfold advance. destruct (w_timer w) as [[d due]|].
  - rewrite (iter_flush_empty _ _ Hb). destruct w; simpl in *. auto.
  - destruct w; simpl in *. auto.
Qed.

(** X16: while nothing is buffered the flush timer writes nothing,
    however much time passes, in one step or in several. *)
Theorem idle_timer_writes_nothing (dts : list Z) (w : World) :
  w_buf w = [] ->
  let w' := fold_left (fun w dt => advance dt w) dts w in
  w_out w' = w_out w /\ w_buf w' = [].
Proof.
  revert w. induction dts as [|dt dts IH]; intros w Hb; simpl; [auto|].
  destruct (advance_idle dt w Hb) as [Ho Hb'].
  destruct (IH _ Hb') as [H1 H2]. simpl in H1, H2. now rewrite H1, H2.
Qed.

(** X17: without buffering every line reaches the destination at once
    and in the order written, whatever time passes in between. *)
Theorem direct_writes_in_order (items : list (Z * string)) (w : World) :
  w_buf w = [] ->
  w_out (append_lines false items w) = (w_out w ++ map snd items)%list
  /\ w_buf (append_lines false items w) = [].
Proof.
  revert w. induction items as [|[d s] items IH]; intros w Hb.
  - simpl. now rewrite app_nil_r.
  - destruct (advance_idle d w Hb) as [Ho Hb'].
    rewrite append_lines_cons.
    match goal with |- context [append_lines false items ?w0] =>
      destruct (IH w0) as [H1 H2]
    end.
    + unfold stream_write, modify. destruct (advance d w); exact Hb'.
    + rewrite H1, H2. split; [|reflexivity].
      unfold stream_write, modify.
      destruct (advance d w); simpl in *. subst. now rewrite <- app_assoc.
Qed.

(** ** The cycle from entry to completion *)

Section Cycle.

Variable user_apply : nat -> list Arg -> Outcome Val.

Lemma middleware_unfold L w :
  middleware user_apply L w =
  if truthy (lg_immediate L) then
    match logRequest user_apply L (enter w) with
    | (Ret _, w') => (Ret tt, set_end_proxied true w')
    | (Throw e, w') => (Throw e, w')
    | (Beyond, w') => (Beyond, w')
    end
  else (Ret tt, set_end_proxied true (subscribe (enter w))).
Proof.
  unfold middleware, bind, modify. fold (enter w).
  destruct (truthy (lg_immediate L)); [|reflexivity].
  now destruct (logRequest user_apply L (enter w)) as [[[]| |] w'].
Qed.

(** What [logRequest] leaves alone. *)
Lemma logRequest_frame L w :
  let w' := snd (logRequest user_apply L w) in
  w_res w' = w_res w /\ w_req w' = w_req w /\ w_exports w' = w_exports w
  /\ w_end_proxied w' = w_end_proxied w /\ w_now w' = w_now w
  /\ w_timer w' = w_timer w.
Proof.
  rewrite logRequest_unfold. unfold stream_write, modify.
  destruct (call_skip _ _ _ _) as [s| |]; [|now destruct w..].
  destruct (truthy s); [now destruct w|].
  destruct (call_render _ _ _ _ _) as [line| |]; [|now destruct w..].
  destruct (nullish line); [now destruct w|].
  destruct (to_string line); [|now destruct w..].
  destruct (lg_buffered L); now destruct w.
Qed.

Lemma call_all_frame L l w :
  let w' := snd (call_all user_apply L l w) in
  w_res w' = w_res w /\ w_end_proxied w' = w_end_proxied w.
Proof.
  revert w. induction l as [|x l IH]; intros w; [now split|].
  cbn [call_all]. unfold bind.
  destruct x as [|i]; cbn [call_listener].
  - pose proof (logRequest_frame L w) as (Hr & _ & _ & He & _).
    destruct (logRequest user_apply L w) as [[[]| |] w1]; cbn [snd] in *;
      try (now split).
    destruct (IH w1) as [H1 H2]. cbn [snd] in *. now rewrite H1, H2.
  - apply IH.
Qed.

Lemma call_all_last L ids w :
  call_all user_apply L (map Foreign ids ++ [LogRequest]) w
  = logRequest user_apply L w.
Proof.
  rewrite call_all_foreign. cbn [call_all call_listener]. unfold bind, ret.
  now destruct (logRequest user_apply L w) as [[[]| |] w'].
Qed.

(** Events other than the completion signals leave a listening cycle
    listening. *)
Lemma step_listening L fl cl ev w :
  is_signal ev = false -> listening fl cl w ->
  listening fl cl (snd (step user_apply L ev w)).
Proof.
  intros Hev H. destruct ev as [| |name v|status|chunk|dt|name v];
    try discriminate; simpl.
  - destruct w; exact H.
  - destruct w; exact H.
  - destruct w as [? ? ? ? []]; exact H.
  - destruct H as (Hf & Hc & Hr & Hb & Ho). unfold advance.
    destruct (w_timer w) as [[d due]|].
    + rewrite (iter_flush_empty _ _ Hb). destruct w; repeat split; assumption.
    + destruct w; repeat split; assumption.
  - define_case w; destruct w; exact H.
Qed.

Lemma run_listening L fl cl evs w :
  existsb is_signal evs = false -> listening fl cl w ->
  listening fl cl (run user_apply L evs w).
Proof.
  revert w. induction evs as [|ev evs IH]; intros w Hevs H; [exact H|].
  simpl in Hevs. apply orb_false_elim in Hevs as [Hev Hevs].
  simpl. apply IH; [exact Hevs | now apply step_listening].
Qed.

Lemma run_app L evs1 evs2 w :
  run user_apply L (evs1 ++ evs2) w
  = run user_apply L evs2 (run user_apply L evs1 w).
Proof. revert w. induction evs1 as [|ev evs1 IH]; intros w; [reflexivity | apply IH]. Qed.

(** Once [logRequest] is subscribed nowhere and nothing is buffered, no
    event writes or renders. *)
Lemma run_finished L evs w :
  subscribed (w_finish w) = O -> subscribed (w_close w) = O -> w_buf w = [] ->
  w_out (run user_apply L evs w) = w_out w
  /\ w_renders (run user_apply L evs w) = w_renders w.
Proof.
  revert w. induction evs as [|ev evs IH]; intros w Hf Hc Hb; [now split|].
  simpl.
  assert (H : let w1 := snd (step user_apply L ev w) in
              subscribed (w_finish w1) = O /\ subscribed (w_close w1) = O
              /\ w_buf w1 = [] /\ w_out w1 = w_out w
              /\ w_renders w1 = w_renders w).
  { destruct ev as [| |name v|status|chunk|dt|name v]; simpl.
    - unfold bind, gets. rewrite call_all_unsubscribed by exact Hf. auto.
    - unfold bind, gets. rewrite call_all_unsubscribed by exact Hc. auto.
    - destruct w; simpl in *; auto.
    - destruct w; simpl in *; auto.
    - destruct w as [? ? ? ? []]; simpl in *; auto.
    - destruct (advance_idle dt w Hb) as [Ho Hb']. unfold advance in *.
      destruct (w_timer w) as [[d due]|].
      + rewrite (iter_flush_empty _ _ Hb) in *. destruct w; simpl in *; auto.
      + destruct w; simpl in *; auto.
    - define_case w; destruct w; simpl in *; auto. }
  destruct H as (Hf' & Hc' & Hb' & Ho' & Hr').
  destruct (IH _ Hf' Hc' Hb') as [H1 H2]. now rewrite H1, H2.
Qed.

(** What [logRequest] leaves behind when it writes to the destination
    directly. *)
Lemma logRequest_direct L w :
  lg_buffered L = false -> armed w ->
  let w' := snd (logRequest user_apply L w) in
  subscribed (w_finish w') = O /\ subscribed (w_close w') = O /\ w_buf w' = [].
Proof.
  intros Hd Ha. pose proof (logRequest_settles user_apply L w Ha) as (Hf & Hc & _).
  destruct Ha as (_ & Hb & _). repeat split; [exact Hf | exact Hc |].
  rewrite logRequest_unfold, Hd. unfold stream_write, modify.
  destruct (call_skip _ _ _ _) as [s| |]; [|now destruct w..].
  destruct (truthy s); [now destruct w|].
  destruct (call_render _ _ _ _ _) as [line| |]; [|now destruct w..].
  destruct (nullish line); [now destruct w|].
  destruct (to_string line); now destruct w.
Qed.

Lemma listening_armed fl cl w : listening fl cl w -> armed w.
Proof.
  intros (Hf & Hc & Hr & Hb & Ho). unfold armed.
  rewrite Hf, Hc, !subscribed_snoc, !subscribed_foreign. auto.
Qed.

Lemma middleware_listening L e t tm rq rs fl cl :
  truthy (lg_immediate L) = false ->
  listening fl cl (snd (middleware user_apply L (fresh e t tm rq rs fl cl))).
Proof.
  intros Hi. rewrite middleware_unfold, Hi. unfold listening. cbn. auto.
Qed.

(** X18: when logging is deferred, nothing is rendered or written before
    the first completion signal; that signal, 'finish' or 'close', does
    what [logRequest] does on the request and response as they are at
    that moment; and with a direct stream no later event changes what the
    destination received. *)
Theorem first_signal_logs L e t tm rq rs fl cl evs1 sig evs2 :
  truthy (lg_immediate L) = false ->
  existsb is_signal evs1 = false -> is_signal sig = true ->
  let w0 := snd (middleware user_apply L (fresh e t tm rq rs fl cl)) in
  let w1 := run user_apply L evs1 w0 in
  (w_renders w1 = O /\ w_out w1 = [] /\ w_buf w1 = [])
  /\ step user_apply L sig w1 = logRequest user_apply L w1
  /\ (lg_buffered L = false ->
      let w2 := run user_apply L (evs1 ++ sig :: evs2) w0 in
      w_out w2 = w_out (snd (logRequest user_apply L w1))
      /\ w_renders w2 = w_renders (snd (logRequest user_apply L w1))).
Proof.
  intros Hi Hevs Hsig w0 w1.
  pose proof (middleware_listening L e t tm rq rs fl cl Hi) as H0. fold w0 in H0.
  pose proof (run_listening L fl cl evs1 w0 Hevs H0) as H1. fold w1 in H1.
  assert (Hstep : step user_apply L sig w1 = logRequest user_apply L w1).
  { destruct H1 as (Hf & Hc & _).
    destruct sig; try discriminate; simpl; unfold bind, gets; cbn [fst snd].
    - rewrite Hf. apply call_all_last.
    - rewrite Hc. apply call_all_last. }
  split; [|split; [exact Hstep|]].
  - destruct H1 as (_ & _ & Hr & Hb & Ho). auto.
  - intros Hd w2. subst w2. rewrite run_app. fold w1. simpl. rewrite Hstep.
    destruct (logRequest_direct L w1 Hd (listening_armed _ _ _ H1))
      as (Hf & Hc & Hb).
    now apply run_finished.
Qed.

(** X19: with [immediate] set the middleware logs during its own call,
    from the request and response as they are on entry, and subscribes to
    no signal; with a direct stream nothing that happens later changes
    what the destination received. *)
Theorem immediate_logs_on_entry L e t tm rq rs fl cl evs :
  truthy (lg_immediate L) = true ->
  let w0 := fresh e t tm rq rs fl cl in
  let logged := logRequest user_apply L (enter w0) in
  let w1 := snd (middleware user_apply L w0) in
  w_res (enter w0) = rs
  /\ fst (middleware user_apply L w0) = fst logged
  /\ w_out w1 = w_out (snd logged) /\ w_buf w1 = w_buf (snd logged)
  /\ w_renders w1 = w_renders (snd logged)
  /\ subscribed (w_finish w1) = O /\ subscribed (w_close w1) = O
  /\ (lg_buffered L = false ->
      w_out (run user_apply L evs w1) = w_out (snd logged)
      /\ w_renders (run user_apply L evs w1) = w_renders (snd logged)).
Proof.
  intros Hi w0 logged w1.
  assert (Ha : armed (enter w0)).
  { unfold armed. simpl. rewrite !subscribed_foreign. auto with lia. }
  pose proof (logRequest_settles user_apply L _ Ha) as (Hf & Hc & _).
  assert (Hw1 : w_out w1 = w_out (snd logged) /\ w_buf w1 = w_buf (snd logged)
                /\ w_renders w1 = w_renders (snd logged)
                /\ w_finish w1 = w_finish (snd logged)
                /\ w_close w1 = w_close (snd logged)
                /\ fst (middleware user_apply L w0) = fst logged).
  { subst w1 logged. rewrite middleware_unfold, Hi.
    destruct (logRequest user_apply L (enter w0)) as [[[]| |] w']; cbn [fst snd];
      destruct w'; repeat split; reflexivity. }
  destruct Hw1 as (Ho & Hb & Hr & Hfin & Hclo & Hfst).
  repeat split; try assumption.
  - now rewrite Hfin.
  - now rewrite Hclo.
  - rewrite <- Ho. apply run_finished; [now rewrite Hfin | now rewrite Hclo |].
    rewrite Hb. now apply (logRequest_direct L _ H Ha).
  - rewrite <- Hr. apply run_finished; [now rewrite Hfin | now rewrite Hclo |].
    rewrite Hb. now apply (logRequest_direct L _ H Ha).
Qed.

End Cycle.

Section ResponseEnd.

Variable user_apply : nat -> list Arg -> Outcome Val.

(** An event that is not a call of [res.end] leaves the captured body and
    the proxy as they are. *)
Lemma step_keeps_body L ev w :
  is_end ev = false ->
  _body (w_res (snd (step user_apply L ev w))) = _body (w_res w)
  /\ w_end_proxied (snd (step user_apply L ev w)) = w_end_proxied w.
Proof.
  intros Hev. destruct ev as [| |name v|status|chunk|dt|name v];
    try discriminate; simpl.
  - unfold bind, gets. cbn [fst snd].
    destruct (call_all_frame user_apply L (w_finish w) w) as [-> ->]. now split.
  - unfold bind, gets. cbn [fst snd].
    destruct (call_all_frame user_apply L (w_close w) w) as [-> ->]. now split.
  - now destruct w.
  - now destruct w.
  - unfold advance. destruct (w_timer w) as [[d due]|]; [|now destruct w].
    assert (H : forall k, w_res (Nat.iter k flush w) = w_res w
                          /\ w_end_proxied (Nat.iter k flush w) = w_end_proxied w).
    { induction k as [|k [IH1 IH2]]; [now split|].
      change (Nat.iter (S k) flush w) with (flush (Nat.iter k flush w)).
      generalize dependent (Nat.iter k flush w). intros w0 <- <-.
      unfold flush. destruct (w_buf w0); [now split | now destruct w0]. }
    destruct (H (fires d due (w_now w + dt))) as [H1 H2].
    destruct (Nat.iter _ flush w); simpl in *. now rewrite H1, H2.
  - define_case w; now destruct w.
Qed.

(** Once the original [res.end] is back, no event changes the captured
    body. *)
Lemma run_restored L evs w :
  w_end_proxied w = false ->
  _body (w_res (run user_apply L evs w)) = _body (w_res w)
  /\ w_end_proxied (run user_apply L evs w) = false.
Proof.
  revert w. induction evs as [|ev evs IH]; intros w Hp; [now split|].
  simpl.
  assert (H : _body (w_res (snd (step user_apply L ev w))) = _body (w_res w)
              /\ w_end_proxied (snd (step user_apply L ev w)) = false).
  { destruct (is_end ev) eqn:E.
    - destruct ev; try discriminate. simpl. rewrite Hp. now split.
    - destruct (step_keeps_body L ev w E) as [H1 H2]. now rewrite H1, H2. }
  destruct H as [H1 H2]. destruct (IH _ H2) as [H3 H4]. now rewrite H3, H1.
Qed.

Lemma run_keeps_body L evs w :
  existsb is_end evs = false ->
  _body (w_res (run user_apply L evs w)) = _body (w_res w)
  /\ w_end_proxied (run user_apply L evs w) = w_end_proxied w.
Proof.
  revert w. induction evs as [|ev evs IH]; intros w Hevs; [now split|].
  simpl in Hevs. apply orb_false_elim in Hevs as [Hev Hevs]. simpl.
  destruct (step_keeps_body L ev w Hev) as [H1 H2].
  destruct (IH (snd (step user_apply L ev w)) Hevs) as [H3 H4].
  now rewrite H3, H4, H1, H2.
Qed.

(** X20: the proxy that the middleware puts on [res.end] captures one
    chunk: the body recorded for the cycle is the chunk of the first call
    of [res.end], that call puts the original [res.end] back, and no later
    call or event changes the record. *)
Theorem end_captures_first_chunk L w evs1 chunk evs2 :
  w_end_proxied w = true ->
  existsb is_end evs1 = false ->
  let w' := run user_apply L (evs1 ++ End chunk :: evs2) w in
  _body (w_res (run user_apply L evs1 w)) = _body (w_res w)
  /\ _body (w_res w') = chunk
  /\ w_end_proxied w' = false.
Proof.
  intros Hp Hevs w'. subst w'. rewrite run_app.
  destruct (run_keeps_body L evs1 w Hevs) as [H1 H2].
  split; [exact H1|]. rewrite Hp in H2.
  cbn [run]. set (w1 := run user_apply L evs1 w) in *.
  assert (H3 : _body (w_res (snd (step user_apply L (End chunk) w1))) = chunk
               /\ w_end_proxied (snd (step user_apply L (End chunk) w1)) = false).
  { simpl. rewrite H2. now destruct w1. }
  destruct H3 as [H3 H4]. destruct (run_restored L evs2 _ H4) as [H5 H6].
  now rewrite H5, H3.
Qed.


(** X22: tokens are looked up when the line is rendered: a token
    registered after the logger was made is used by the next line, so a
    reference that raised a TypeError, because [exports] held nothing
    under its name, renders once [exports.token] has been called. *)
Theorem late_registration_is_used L w name f s :
  valid_name name = true ->
  lg_skip L = VFun FNeverSkip ->
  lg_fmt L = VFun (FCompiled (compile_js (String ":" name))) ->
  lg_buffered L = false ->
  export_get (w_exports w) "token" = Ret (VFun FApiToken) ->
  export_get (w_exports w) name = Ret VUndef ->
  call_token user_apply f (w_req w) (w_res w) "undefined" = Ret (VStr s) ->
  s <> EmptyString ->
  fst (logRequest user_apply L w) = Throw TypeError
  /\ fst (step user_apply L (Define name f) w) = Ret tt
  /\ let w1 := snd (step user_apply L (Define name f) w) in
     fst (logRequest user_apply L w1) = Ret tt
     /\ w_out (snd (logRequest user_apply L w1)) = (w_out w ++ [s +:+ str1 lf])%list.
Proof.
  intros Hv Hskip Hfmt Hd Hapi Hnone Hcall Hs.
  assert (Ht : truthy (VStr s) = true)
    by (simpl; apply negb_true_iff, String.eqb_neq, Hs).
  pose proof (export_get_undef _ _ Hnone) as Ha.
  assert (Hdef : step user_apply L (Define name f) w
                 = (Ret tt, set_exports (fun _ => <[name := f]> (w_exports w)) w)).
  { cbn [step]. unfold bind, gets, lift, modify, exports_token. cbn [fst snd].
    rewrite Hapi. cbn [obind apply_api]. unfold token.
    now rewrite (export_set_assignable _ _ _ Ha). }
  split; [|split].
  - rewrite logRequest_unfold, Hskip, Hfmt. cbn [call_skip truthy call_render].
    rewrite (run_compiled_single user_apply _ _ _ _ Hv).
    unfold call_named. now rewrite Hnone.
  - now rewrite Hdef.
  - rewrite Hdef. cbn [snd].
    rewrite !logRequest_unfold, Hskip, Hfmt, Hd.
    cbn [call_skip truthy call_render].
    set (w1 := set_exports _ w).
    assert (Hreq : w_req w1 = w_req w) by now destruct w.
    assert (Hres : w_res w1 = w_res w) by now destruct w.
    assert (Hexp : w_exports w1 = <[name := f]> (w_exports w)) by now destruct w.
    rewrite Hreq, Hres, Hexp.
    rewrite (run_compiled_single user_apply _ _ _ _ Hv).
    unfold call_named. rewrite (export_get_insert _ _ _ Ha). cbn [obind].
    rewrite Hcall. cbn [obind]. unfold or_val. rewrite Ht.
    cbn [to_string obind nullish]. unfold stream_write, modify.
    split; [reflexivity|]. subst w1. now destruct w.
Qed.

End ResponseEnd.

Section EntryState.

Variable user_apply : nat -> list Arg -> Outcome Val.






End EntryState.

(** ** The latency of the batching writer *)

Lemma advance_timer_due d dt w :
  1 <= d -> 0 <= dt -> timer_due_within d w -> timer_due_within d (advance dt w).
Proof.
  intros Hd Hdt (due & Ht & Hdue). unfold timer_due_within, advance, fires.
  rewrite Ht. destruct (Z.ltb_spec (w_now w + dt) due) as [Hlt|Hge].
  - exists due. destruct w; simpl in *. split; [f_equal; f_equal; lia | lia].
  - exists (due + Z.of_nat (Z.to_nat ((w_now w + dt - due) / d + 1)) * d).
    assert (Hq : 0 <= (w_now w + dt - due) / d) by (apply Z.div_pos; lia).
    rewrite Z2Nat.id by lia.
    pose proof (Z.mod_pos_bound (w_now w + dt - due) d ltac:(lia)) as Hm.
    pose proof (Z.div_mod (w_now w + dt - due) d ltac:(lia)) as Hdm.
    destruct (Nat.iter _ flush w) eqn:E.
    assert (Hnow : w_now (Nat.iter (Z.to_nat ((w_now w + dt - due) / d + 1)) flush w)
                   = w_now w).
    { generalize (Z.to_nat ((w_now w + dt - due) / d + 1)). intros k.
      induction k as [|k IH]; [reflexivity|].
      change (Nat.iter (S k) flush w) with (flush (Nat.iter k flush w)).
      rewrite <- IH. generalize (Nat.iter k flush w). intros w0.
      unfold flush. destruct (w_buf w0); [reflexivity | now destruct w0]. }
    simpl. split; [reflexivity|]. nia.
Qed.

Lemma write_timer_due d s w :
  timer_due_within d w -> timer_due_within d (snd (stream_write true s w)).
Proof. intros (due & Ht & Hdue). exists due. destruct w; simpl in *. auto. Qed.

Lemma append_lines_timer_due d items w :
  1 <= d -> Forall (fun p => 0 <= fst p) items ->
  timer_due_within d w -> timer_due_within d (append_lines true items w).
Proof.
  intros Hd Hpos. revert w. induction Hpos as [|[dt s] items Hdt _ IH]; intros w H;
    [exact H|].
  rewrite append_lines_cons. apply IH, write_timer_due, advance_timer_due; auto.
Qed.

Lemma advance_empties d dt w :
  1 <= d -> d <= dt -> timer_due_within d w -> w_buf (advance dt w) = [].
Proof.
  intros Hd Hdt (due & Ht & Hdue). unfold advance, fires. rewrite Ht.
  destruct (Z.ltb_spec (w_now w + dt) due); [lia|].
  assert (Hk : 0 <= (w_now w + dt - due) / d) by (apply Z.div_pos; lia).
  destruct (Z.to_nat ((w_now w + dt - due) / d + 1)) as [|k] eqn:E; [lia|].
  rewrite iter_flush_S. pose proof (flush_buf w) as Hb.
  destruct (flush w); exact Hb.
Qed.

(** X24: the batching writer delays a line by no more than one flush
    interval: once an interval has passed after the last line, the buffer
    is empty and the destination has received every line handed over, in
    order. *)
Theorem buffered_lines_delivered_within_interval
    (user_key : nat -> Outcome string) o w0 L w items dt :
  truthy (opt_buffer o) = true ->
  logger user_key (ArgObject o) w0 = (Ret L, w) ->
  Forall (fun p => 0 <= fst p) items ->
  flush_interval (opt_buffer o) <= dt ->
  let w' := advance dt (append_lines true items w) in
  w_buf w' = []
  /\ join (w_out w') = join (w_out w0) +:+ join (map snd items).
Proof.
  intros Hb Hlog Hpos Hdt w'.
  destruct (logger_buffered user_key o w0 L w Hb Hlog)
    as (_ & Ht & Hbuf & Hout & Hnow).
  pose proof (timer_delay_pos (match opt_buffer o with
                               | VNum n => n
                               | _ => defaultBufferDuration
                               end)) as Hd.
  fold (flush_interval (opt_buffer o)) in Hd.
  assert (H0 : timer_due_within (flush_interval (opt_buffer o)) w).
  { eexists. split; [exact Ht | lia]. }
  pose proof (append_lines_timer_due _ items w Hd Hpos H0) as H1.
  pose proof (advance_empties _ dt _ Hd Hdt H1) as Hempty. fold w' in Hempty.
  split; [exact Hempty|].
  pose proof (batching_order_lemma items dt w) as Hdel.
  fold w' in Hdel. unfold delivered in Hdel.
  rewrite Hempty, Hbuf, Hout in Hdel. simpl in Hdel.
  now rewrite !append_nil_r in Hdel.
Qed.

(** ** Instances of the further properties *)

Lemma compile_succeeds_witness :
  compile (VStr default_format) = Ret (FCompiled (compile_js default_format)).
Proof. apply (compile_succeeds default_format). vm_compute. reflexivity. Defined.

Lemma render_chunks_witness :
  render_template sample_user (VStr (apos_to_dq "{'m':':method'}"))
    initial_exports sample_request sample_response
  = Ret (VStr (apos_to_dq "{'m':'GET'}")).
Proof.
  etransitivity.
  - apply (render_chunks sample_user (apos_to_dq "{'m':':method'}")).
    vm_compute. reflexivity.
  - vm_compute. reflexivity.
Defined.

Lemma render_template_of_witness :
  render_template sample_user
    (VStr (apos_to_dq "{'h':':req[Host]','m':':method'}"))
    initial_exports hosted_request sample_response
  = Ret (VStr (apos_to_dq "{'h':'example.org','m':'GET'}")).
Proof.
  etransitivity.
  - apply (render_template_of sample_user (apos_to_dq "{'h':'")
             [mkPiece "req" (Some "Host") (apos_to_dq "','m':'");
              mkPiece "method" None (apos_to_dq "'}")]);
      vm_compute; reflexivity.
  - vm_compute. reflexivity.
Defined.

Lemma render_returns_witness :
  exists out,
    render_template sample_user (VStr example_format) initial_exports
      sample_request (w_res answered_world)
    = Ret (VStr out).
Proof.
  apply (render_returns sample_user example_format).
  - vm_compute. reflexivity.
  - match goal with |- Forall _ ?l =>
      let l' := eval vm_compute in l in change l with l'
    end.
    constructor;
      [exists (VStr "GET"), "GET"; split; vm_compute; reflexivity|].
    constructor;
      [exists (VNum 404), "404"; split; vm_compute; reflexivity|].
    constructor.
Defined.

Lemma render_first_exception_witness :
  render_template sample_user (VStr ":method :boom")
    (registered "boom" (VFun (FUser 1)) initial_exports)
    sample_request sample_response
  = Throw (Thrown (VStr "boom")).
Proof.
  apply (render_first_exception sample_user EmptyString
           [mkPiece "method" None " "] (mkPiece "boom" None EmptyString) []).
  - reflexivity.
  - reflexivity.
  - vm_compute. reflexivity.
  - constructor;
      [exists (VStr "GET"), "GET"; split; vm_compute; reflexivity|].
    constructor.
  - vm_compute. reflexivity.
Defined.

Lemma status_render_witness :
  render_template sample_user (VStr ":status") initial_exports
    sample_request sample_response
  = Ret (VStr "-").
Proof.
  refine (proj1 (status_render sample_user initial_exports sample_request
                   sample_response _) _); vm_compute; reflexivity.
Defined.

Lemma referrer_render_witness :
  render_template sample_user (VStr ":referrer") initial_exports
    sample_request sample_response
  = Ret (VStr "-").
Proof.
  refine (proj2 (proj2 (referrer_render sample_user initial_exports
                          sample_request sample_response _)) _ _);
    vm_compute; reflexivity.
Defined.

Lemma req_header_render_witness :
  render_template sample_user (VStr ":req[HOST]") initial_exports
    hosted_request sample_response
  = render_template sample_user (VStr ":req[Host]") initial_exports
      hosted_request sample_response.
Proof.
  refine (proj2 (proj2 (req_header_render sample_user initial_exports
                          hosted_request sample_response "Host" _ _))
            "HOST" _ _);
    vm_compute; reflexivity.
Defined.

Lemma res_header_render_witness :
  render_template sample_user (VStr ":res[content-length]") initial_exports
    sample_request sample_response
  = Ret (VStr "-").
Proof.
  refine (proj2 (proj2 (res_header_render sample_user initial_exports
                          sample_request sample_response "content-length" _ _))
            _ _);
    vm_compute; reflexivity.
Defined.

Lemma registration_lookup_witness :
  let calls := [AsToken "id" (VFun (FUser 0)); AsFormat "name" (VStr "x");
                AsToken "id" (VFun (FUser 2))] in
  exists e',
    register_all calls initial_exports = Ret e'
    /\ forall n,
         export_get e' n =
         if assignable n then
           match last_registered n calls with
           | Some v => Ret v
           | None => export_get initial_exports n
           end
         else export_get initial_exports n.
Proof.
  apply (registration_lookup initial_exports
           [AsToken "id" (VFun (FUser 0)); AsFormat "name" (VStr "x");
            AsToken "id" (VFun (FUser 2))]);
    vm_compute; reflexivity.
Defined.

Lemma logger_rejects_format_witness :
  logger sample_key (ArgValue (VBool true)) sample_world
  = (Throw TypeError, sample_world).
Proof.
  apply (logger_rejects_format sample_key (ArgValue (VBool true)) sample_world
           (VBool true)).
  - reflexivity.
  - left. reflexivity.
  - vm_compute. reflexivity.
Defined.

Lemma idle_timer_writes_nothing_witness :
  let w' := fold_left (fun w dt => advance dt w) [500; 700] buffering_world in
  w_out w' = w_out buffering_world /\ w_buf w' = [].
Proof. apply (idle_timer_writes_nothing [500; 700] buffering_world). reflexivity. Defined.

Lemma direct_writes_in_order_witness :
  w_out (append_lines false [(5, "a"); (5, "b")] sample_world)
  = (w_out sample_world ++ ["a"; "b"])%list
  /\ w_buf (append_lines false [(5, "a"); (5, "b")] sample_world) = [].
Proof.
  apply (direct_writes_in_order [(5, "a"); (5, "b")] sample_world). reflexivity.
Defined.

Lemma first_signal_logs_witness :
  let w0 := snd (middleware sample_user example_logger_value sample_world) in
  let w1 := run sample_user example_logger_value [WriteHead (VNum 404)] w0 in
  (w_renders w1 = O /\ w_out w1 = [] /\ w_buf w1 = [])
  /\ step sample_user example_logger_value Finish w1
     = logRequest sample_user example_logger_value w1
  /\ (lg_buffered example_logger_value = false ->
      let w2 := run sample_user example_logger_value
                  ([WriteHead (VNum 404)] ++ Finish :: [Close]) w0 in
      w_out w2 = w_out (snd (logRequest sample_user example_logger_value w1))
      /\ w_renders w2
         = w_renders (snd (logRequest sample_user example_logger_value w1))).
Proof.
  apply (first_signal_logs sample_user example_logger_value initial_exports 0
           None sample_request sample_response [7%nat] []
           [WriteHead (VNum 404)] Finish [Close]); reflexivity.
Defined.

Lemma immediate_logs_on_entry_witness :
  let w0 := sample_world in
  let logged := logRequest sample_user immediate_logger (enter w0) in
  let w1 := snd (middleware sample_user immediate_logger w0) in
  w_res (enter w0) = sample_response
  /\ fst (middleware sample_user immediate_logger w0) = fst logged
  /\ w_out w1 = w_out (snd logged) /\ w_buf w1 = w_buf (snd logged)
  /\ w_renders w1 = w_renders (snd logged)
  /\ subscribed (w_finish w1) = O /\ subscribed (w_close w1) = O
  /\ (lg_buffered immediate_logger = false ->
      w_out (run sample_user immediate_logger [WriteHead (VNum 404); Finish] w1)
      = w_out (snd logged)
      /\ w_renders (run sample_user immediate_logger
                      [WriteHead (VNum 404); Finish] w1)
         = w_renders (snd logged)).
Proof.
  apply (immediate_logs_on_entry sample_user immediate_logger initial_exports 0
           None sample_request sample_response [7%nat] []
           [WriteHead (VNum 404); Finish]). reflexivity.
Defined.

Lemma end_captures_first_chunk_witness :
  let w := snd (middleware sample_user example_logger_value sample_world) in
  let w' := run sample_user example_logger_value
              ([WriteHead (VNum 200)] ++ End (VStr "hello") :: [End (VStr "again")])
              w in
  _body (w_res (run sample_user example_logger_value [WriteHead (VNum 200)] w))
  = _body (w_res w)
  /\ _body (w_res w') = VStr "hello"
  /\ w_end_proxied w' = false.
Proof.
  apply (end_captures_first_chunk sample_user example_logger_value
           (snd (middleware sample_user example_logger_value sample_world))
           [WriteHead (VNum 200)] (VStr "hello") [End (VStr "again")]);
    reflexivity.
Defined.

Lemma late_registration_is_used_witness :
  fst (logRequest sample_user verb_logger sample_world) = Throw TypeError
  /\ fst (step sample_user verb_logger
            (Define "verb" (VFun (FToken TMethod))) sample_world) = Ret tt
  /\ let w1 := snd (step sample_user verb_logger
                      (Define "verb" (VFun (FToken TMethod))) sample_world) in
     fst (logRequest sample_user verb_logger w1) = Ret tt
     /\ w_out (snd (logRequest sample_user verb_logger w1))
        = (w_out sample_world ++ ["GET" +:+ str1 lf])%list.
Proof.
  apply (late_registration_is_used sample_user verb_logger sample_world "verb"
           (VFun (FToken TMethod)) "GET"); try (vm_compute; reflexivity).
  discriminate.
Defined.

Lemma buffered_lines_delivered_within_interval_witness :
  let w' := advance 1000 (append_lines true [(100, "a"); (200, "b")] buffering_world) in
  w_buf w' = []
  /\ join (w_out w') = join (w_out sample_world) +:+ join ["a"; "b"].
Proof.
  apply (buffered_lines_delivered_within_interval sample_key buffering_options
           sample_world
           buffering_logger buffering_world [(100, "a"); (200, "b")] 1000).
  - reflexivity.
  - vm_compute. reflexivity.
  - repeat constructor; simpl; lia.
  - vm_compute. discriminate.
Defined.
